(** * BLE error estimation (CppVersion): a shallow embedding

    The C++ sources embedded here are [utils.cpp], [kalman.cpp] / [kalman.h],
    [models.cpp] / [models.h], [metrics.cpp] and the calibration constants of
    [config.h].

    Numeric conventions of the embedding.  A C++ [float] is read as a real
    number ([R]) and every arithmetic operation as the exact operation on
    reals: rounding, overflow, infinities and NaN are outside the model.
    The division of the model is the total division of the reals; a
    quotient by zero, like a log-gamma at a pole, has no real value in the
    source, so a statement about a value computed through one describes
    the source only where the divisor is not zero and the argument is not a
    pole, and the theorems about such values carry that condition.
    [std::log], [std::log1p], [std::log10], [std::sqrt], [std::exp] are the
    real functions; [std::lgamma] has no counterpart in the standard library
    of reals and is a parameter of the functions that call it.  An [int] is
    an integer ([Z]) and [/] between two [int]s is the truncating quotient.

    Memory conventions.  An [Anchor*] is an address ([ptr]); the anchors
    live in a heap mapping addresses to [Anchor] values, and a function that
    mutates anchors through pointers returns the new heap. *)

From Stdlib Require Import Reals Lra Lia ZArith List Permutation Sorted.
From Stdlib Require OrderedTypeEx.
From stdpp Require Import base decidable option list strings gmap fin_maps.

Open Scope R_scope.

(** Decidable comparisons on reals, so that the C++ conditions can be
    written with [decide] and [bool_decide]. *)
#[global] Instance Rlt_decision (x y : R) : Decision (x < y) := Rlt_dec x y.
#[global] Instance Rle_decision (x y : R) : Decision (x <= y) := Rle_dec x y.
#[global] Instance Rgt_decision (x y : R) : Decision (x > y) := Rgt_dec x y.
#[global] Instance Rge_decision (x y : R) : Decision (x >= y) := Rge_dec x y.
#[global] Instance Req_decision : EqDecision R := Req_dec_T.

(** [std::numeric_limits<float>::lowest()], the most negative finite
    binary32 value, [-(2 - 2^-23) * 2^127]. *)
Definition FLT_LOWEST : R := - ((2 - / 2 ^ 23) * 2 ^ 127).

(* ------------------------------------------------------------------ *)
(** ** config.h: calibration constants *)

Module Calibration.

Definition MAX_SIGNIFICANT_ANCHORS : nat := 5.
Definition EWMA_THRESHOLD : R := 8.
Definition LAMBDA_EWMA : R := 0.05.
Definition STUDENT_T_DEGREES_OF_FREEDOM : Z := 5.

Definition CEP95_TABLE : list (R * R) :=
  [ (0.05, 7.4); (0.17, 6.1); (0.43, 4.3); (0.80, 2.5);
    (0.85, 2.0); (0.90, 1.6); (0.95, 1.2); (0.98, 0.9) ].

End Calibration.

(* ------------------------------------------------------------------ *)
(** ** utils.cpp *)

Module Utils.

Definition PointR3 : Type := R * R * R.

(** [constexpr float PI = 3.14159265358979323846f] *)
Definition PI_const : R := 3.14159265358979323846.

Definition log10 (x : R) : R := ln x / ln 10.
Definition log1p (x : R) : R := ln (1 + x).

Definition R3_distance (a b : PointR3) : R :=
  let '(a0, a1, a2) := a in
  let '(b0, b1, b2) := b in
  let delta_0 := (a0 - b0) ^ 2 in
  let delta_1 := (a1 - b1) ^ 2 in
  let delta_2 := (a2 - b2) ^ 2 in
  sqrt (delta_0 + delta_1 + delta_2).

Section Lgamma.
(** [std::lgamma] of the C math library. *)
Variable lgamma : R -> R.

(** [(v + 1) / 2] and [v / 2] are divisions of [int] by [int] in the source:
    the quotient is truncated before it is handed to [std::lgamma].  The
    fourth term casts to [float] first and divides in floating point. *)
Definition logpdf_student_t (z : R) (v : Z) : R :=
  let pi := PI_const in
  let a_1 := lgamma (IZR ((v + 1) ÷ 2)) in
  let a_2 := lgamma (IZR (v ÷ 2)) in
  let a_3 := 0.5 * ln (IZR v * pi) in
  let a_4 := (IZR (v + 1) / 2) * log1p ((z * z) / IZR v) in
  a_1 - a_2 - a_3 - a_4.
End Lgamma.

(** [table[i]]; reading past the end is undefined in C++, here it yields
    the pair [(0, 0)]. *)
Definition table_at (table : list (R * R)) (i : nat) : R * R :=
  nth i table (0, 0).

(** The scanning loop of [cep95_from_conf]:
    [for (; i < table.size() - 1; ++i) if (table[i+1].first > p_conf) break;]
    [k] counts the iterations left before [i] reaches [table.size() - 1]. *)
Fixpoint cep95_scan (table : list (R * R)) (p_conf : R) (i k : nat) : nat :=
  match k with
  | O => i
  | S k' =>
      let x_next := fst (table_at table (i + 1)) in
      if decide (x_next > p_conf) then i
      else cep95_scan table p_conf (S i) k'
  end.

Definition cep95_from_table (table : list (R * R)) (p_conf : R) : R :=
  let front := table_at table 0 in
  let back := table_at table (length table - 1) in
  if decide (p_conf <= fst front) then snd front
  else if decide (p_conf >= fst back) then snd back
  else
    let i := cep95_scan table p_conf 0 (length table - 1) in
    let x0 := fst (table_at table i) in
    let x1 := fst (table_at table (i + 1)) in
    let y0 := snd (table_at table i) in
    let y1 := snd (table_at table (i + 1)) in
    let t := (p_conf - x0) / (x1 - x0) in
    y0 + t * (y1 - y0).

Definition cep95_from_conf (p_conf : R) : R :=
  cep95_from_table Calibration.CEP95_TABLE p_conf.

End Utils.

(* ------------------------------------------------------------------ *)
(** ** kalman.h, kalman.cpp *)

Module Kalman.

Definition min_required_points : nat := 5.
Definition max_buffer : nat := 50.
Definition alpha : R := 0.1.
Definition beta : R := 0.8.

Record KalmanFilter : Type := mkKalman {
  Q00 : R; Q01 : R; Q10 : R; Q11 : R;
  P00 : R; P01 : R; P10 : R; P11 : R;
  d_0 : R;
  sigma : R;
  residuals : list R;
  rssi_vals : list R
}.

(** The member initialisers of [kalman.h]. *)
Definition init : KalmanFilter :=
  {| Q00 := 0.0025 ^ 2; Q01 := 0; Q10 := 0; Q11 := 0.0001 ^ 2;
     P00 := 1; P01 := 0; P10 := 0; P11 := 0.1;
     d_0 := 1;
     sigma := 4;
     residuals := [];
     rssi_vals := [] |}.

(** [std::accumulate(begin, end, 0.0f)] *)
Definition accumulate (l : list R) : R := fold_left Rplus l 0.

(** [for (float r : l) var += std::pow(r - mean, 2.0f);] from [var = 0]. *)
Definition sum_sq_dev (mean : R) (l : list R) : R :=
  fold_left (fun var r => var + (r - mean) ^ 2) l 0.

Definition size (l : list R) : R := INR (length l).

Definition computeResidualVariance (k : KalmanFilter) : R :=
  if decide (length (residuals k) < min_required_points)%nat then 0.0025 ^ 2
  else
    let mean := accumulate (residuals k) / size (residuals k) in
    let var := sum_sq_dev mean (residuals k) in
    var / size (residuals k).

Definition computeRSSIStdDev (k : KalmanFilter) : R :=
  if decide (length (rssi_vals k) < min_required_points)%nat then 4
  else
    let mean := accumulate (rssi_vals k) / size (rssi_vals k) in
    let var := sum_sq_dev mean (rssi_vals k) in
    sqrt (var / size (rssi_vals k)).

(** [buf.push_back(x); if (buf.size() > max_buffer) buf.erase(buf.begin());] *)
Definition push_trim (buf : list R) (x : R) : list R :=
  let buf' := buf ++ [x] in
  if decide (max_buffer < length buf')%nat then tail buf' else buf'.

(** [sequence_step] mutates the filter and returns the updated state
    vector: the result is the pair (new filter, (RSSI0, n)).  The two gains
    are quotients by [S], which the source does not test: the definition
    follows the source wherever [S] is not zero. *)
Definition sequence_step (k : KalmanFilter) (RSSI0_i n_i r_val d_val : R)
  : KalmanFilter * (R * R) :=
  let x_ji0 := RSSI0_i in
  let x_ji1 := n_i in
  (* store RSSI and trim *)
  let rssi_vals' := push_trim (rssi_vals k) r_val in
  let k1 := {| Q00 := Q00 k; Q01 := Q01 k; Q10 := Q10 k; Q11 := Q11 k;
               P00 := P00 k; P01 := P01 k; P10 := P10 k; P11 := P11 k;
               d_0 := d_0 k; sigma := sigma k;
               residuals := residuals k; rssi_vals := rssi_vals' |} in
  (* adaptive sigma *)
  let sigma' :=
    if decide (min_required_points <= length rssi_vals')%nat
    then beta * computeRSSIStdDev k1 else sigma k in
  (* adaptive Q *)
  let '(q00, q11) :=
    if decide (min_required_points <= length (residuals k))%nat
    then let resid_var := computeResidualVariance k1 in
         (alpha * resid_var, alpha * (resid_var / 100))
    else (Q00 k, Q11 k) in
  (* P{i+1|i} = P{i|i} + Q *)
  let p00 := P00 k + q00 in
  let p01 := P01 k + Q01 k in
  let p10 := P10 k + Q10 k in
  let p11 := P11 k + q11 in
  (* H = [1 X] *)
  let safe_d_val := Rmax d_val 1e-6 in
  let X := (-10) * Utils.log10 (safe_d_val / d_0 k) in
  let H0 := 1 in
  let H1 := X in
  (* predicted measurement and residual *)
  let r_predict := H0 * x_ji0 + H1 * x_ji1 in
  let resid := r_val - r_predict in
  let residuals' := push_trim (residuals k) resid in
  (* S and K *)
  let S := H0 * (p00 * H0 + p01 * H1) + H1 * (p10 * H0 + p11 * H1)
           + sigma' ^ 2 in
  let K0 := (p00 * H0 + p01 * H1) / S in
  let K1 := (p10 * H0 + p11 * H1) / S in
  (* x_jj *)
  let x_jj0 := x_ji0 + K0 * resid in
  let x_jj1 := x_ji1 + K1 * resid in
  let KH00 := K0 * H0 in
  let KH01 := K0 * H1 in
  let KH10 := K1 * H0 in
  let KH11 := K1 * H1 in
  let I_minus_KH00 := 1 - KH00 in
  let I_minus_KH01 := - KH01 in
  let I_minus_KH10 := - KH10 in
  let I_minus_KH11 := 1 - KH11 in
  let newP00 := I_minus_KH00 * p00 + I_minus_KH01 * p10 in
  let newP01 := I_minus_KH00 * p01 + I_minus_KH01 * p11 in
  let newP10 := I_minus_KH10 * p00 + I_minus_KH11 * p10 in
  let newP11 := I_minus_KH10 * p01 + I_minus_KH11 * p11 in
  ({| Q00 := q00; Q01 := Q01 k; Q10 := Q10 k; Q11 := q11;
      P00 := newP00; P01 := newP01; P10 := newP10; P11 := newP11;
      d_0 := d_0 k; sigma := sigma';
      residuals := residuals'; rssi_vals := rssi_vals' |},
   (x_jj0, x_jj1)).

(** A filter driven through a list of calls [(RSSI0_i, n_i, r_val, d_val)],
    oldest first; only the filter is kept. *)
Definition run (k : KalmanFilter) (calls : list (R * R * R * R)) : KalmanFilter :=
  fold_left (fun k c => let '(x0, x1, r, d) := c in
                        fst (sequence_step k x0 x1 r d)) calls k.

End Kalman.

(* ------------------------------------------------------------------ *)
(** ** models.h, models.cpp *)

Module Models.

Record Anchor : Type := mkAnchor {
  mac_address : string;
  coord : Utils.PointR3;
  ewma : R;
  last_seen : R;
  RSSI_0 : R;
  n : R;
  kalman : Kalman.KalmanFilter
}.

(** [Anchor::Anchor(mac, coordinate, timestamp)] with the member
    initialisers of [models.h]. *)
Definition new_Anchor (mac : string) (coordinate : Utils.PointR3) (timestamp : R)
  : Anchor :=
  {| mac_address := mac; coord := coordinate;
     ewma := 1; last_seen := timestamp;
     RSSI_0 := -59; n := 2;
     kalman := Kalman.init |}.

Definition update_health (a : Anchor) (z now LAMBDA : R) : Anchor :=
  {| mac_address := mac_address a; coord := coord a;
     ewma := LAMBDA * z ^ 2 + (1 - LAMBDA) * ewma a;
     last_seen := now;
     RSSI_0 := RSSI_0 a; n := n a; kalman := kalman a |}.

Definition update_parameters (a : Anchor) (measured_rssi estimated_distance : R)
  : Anchor :=
  let kaloutpt :=
    Kalman.sequence_step (kalman a) (RSSI_0 a) (n a)
                         measured_rssi estimated_distance in
  {| mac_address := mac_address a; coord := coord a;
     ewma := ewma a; last_seen := last_seen a;
     RSSI_0 := fst (snd kaloutpt);
     n := snd (snd kaloutpt);
     kalman := fst kaloutpt |}.

Definition is_warning (a : Anchor) : bool :=
  bool_decide (ewma a >= 4) && bool_decide (ewma a < 8).

Definition is_faulty (a : Anchor) : bool := bool_decide (ewma a >= 8).

(** [Tag]: [rssi_readings] is a [std::unordered_map<std::string, float>]. *)
Record Tag : Type := mkTag {
  tag_mac_address : string;
  est_coord : Utils.PointR3;
  rssi_readings : gmap string R
}.

Record PathLossModel : Type := mkModel {
  d_0 : R;
  sigma : R
}.

(** [PathLossModel::PathLossModel()] with the member initialisers. *)
Definition new_PathLossModel : PathLossModel := {| d_0 := 1; sigma := 4 |}.

Definition mu (m : PathLossModel) (RSSI_0 n est_dist : R) : R :=
  let safe_dist := Rmax est_dist 1e-6 in
  RSSI_0 - (10 * n * Utils.log10 (safe_dist / d_0 m)).

Definition z (m : PathLossModel) (rssi_freq RSSI_0 n est_dist : R) : R :=
  let mu_val := mu m RSSI_0 n est_dist in
  (rssi_freq - mu_val) / sigma m.

End Models.

(* ------------------------------------------------------------------ *)
(** ** metrics.cpp *)

Module Metrics.
Import Models.

(** An [Anchor*] and the memory the pointers of [anch_list] point into. *)
Definition ptr : Type := nat.
Definition Heap : Type := ptr -> Anchor.

(** [*p = a] *)
Definition store (h : Heap) (p : ptr) (a : Anchor) : Heap :=
  fun q => if decide (q = p) then a else h q.

(** [rssi_dict.at(mac)].  [at] throws [std::out_of_range] on a missing key;
    every call site passes the address of an anchor that passed the
    membership test of [get_significant_anchors] (see [significant_in_map]
    below), so the exceptional branch is never taken and is given the
    value [0] here. *)
Definition rssi_at (rssi_dict : gmap string R) (mac : string) : R :=
  default 0 (rssi_dict !! mac).

(** The loop
    [max_rssi = lowest(); for (k, value) in rssi_dict: if (value > max_rssi) max_rssi = value;] *)
Definition max_rssi_of (rssi_dict : gmap string R) : R :=
  map_fold (fun _ value max_rssi =>
              if decide (value > max_rssi) then value else max_rssi)
           FLT_LOWEST rssi_dict.

(** The comparator handed to [std::sort]:
    [rssi_dict.at(a1->mac) > rssi_dict.at(a2->mac)]. *)
Definition rssi_gt (h : Heap) (rssi_dict : gmap string R) (a1 a2 : ptr) : bool :=
  bool_decide (rssi_at rssi_dict (mac_address (h a1))
               > rssi_at rssi_dict (mac_address (h a2))).

(** [std::sort(first, last, comp)] is modelled by a stable insertion sort;
    the order [std::sort] gives to elements that compare equivalent is
    unspecified, the stable order is one of the permitted results. *)
Fixpoint sort_insert {A} (comp : A -> A -> bool) (x : A) (l : list A) : list A :=
  match l with
  | [] => [x]
  | y :: l' => if comp y x then y :: sort_insert comp x l' else x :: l
  end.

Fixpoint std_sort {A} (comp : A -> A -> bool) (l : list A) : list A :=
  match l with
  | [] => []
  | x :: l' => sort_insert comp x (std_sort comp l')
  end.

(** The selection condition inside the loop over [anch_list]. *)
Definition keeps (h : Heap) (rssi_dict : gmap string R) (max_rssi : R)
  (anchor : ptr) : bool :=
  match rssi_dict !! mac_address (h anchor) with
  | Some rssi =>
      bool_decide (rssi >= max_rssi - 10)
      && bool_decide (ewma (h anchor) < Calibration.EWMA_THRESHOLD)
  | None => false
  end.

Definition get_significant_anchors (h : Heap) (tag : Tag)
  (anch_list : list ptr) (max_n : nat) : list ptr :=
  let rssi_dict := rssi_readings tag in
  if decide (rssi_dict = ∅) then []
  else
    let max_rssi := max_rssi_of rssi_dict in
    let keep := List.filter (keeps h rssi_dict max_rssi) anch_list in
    let keep := std_sort (rssi_gt h rssi_dict) keep in
    if decide (max_n < length keep)%nat then firstn max_n keep else keep.

(** A [std::unordered_map<Anchor*, float>].  [models.h] specialises
    [std::hash<Anchor*>] and [std::equal_to<Anchor*>] to hash and compare the
    anchors' MAC addresses, so two addresses are the same key when the
    anchors they point to carry the same MAC.  The map is kept as the list
    of its entries in insertion order; the order in which C++ iterates
    over it is unspecified. *)
Definition AnchorMap : Type := list (ptr * R).

Definition same_key (h : Heap) (p q : ptr) : bool :=
  bool_decide (mac_address (h p) = mac_address (h q)).

(** [m[k] = v]: overwrite the value of an equal key, else add the entry. *)
Fixpoint amap_set (h : Heap) (m : AnchorMap) (k : ptr) (v : R) : AnchorMap :=
  match m with
  | [] => [(k, v)]
  | (k', v') :: m' =>
      if same_key h k' k then (k', v) :: m'
      else (k', v') :: amap_set h m' k v
  end.

(** [m.at(k)]; the missing-key branch (an exception in C++) is unreachable
    from the call sites and is given the value [0]. *)
Fixpoint amap_at (h : Heap) (m : AnchorMap) (k : ptr) : R :=
  match m with
  | [] => 0
  | (k', v') :: m' => if same_key h k' k then v' else amap_at h m' k
  end.

Definition distances (h : Heap) (tag : Tag) (anch_list : list ptr) : AnchorMap :=
  let significant_anchors :=
    get_significant_anchors h tag anch_list Calibration.MAX_SIGNIFICANT_ANCHORS in
  fold_left
    (fun result anchor =>
       let dist := Utils.R3_distance (coord (h anchor)) (est_coord tag) in
       amap_set h result anchor dist)
    significant_anchors [].

Definition z_vals (h : Heap) (tag : Tag) (model : PathLossModel)
  (anch_list : list ptr) : AnchorMap :=
  let dist_dict := distances h tag anch_list in
  let rssi_dict := rssi_readings tag in
  fold_left
    (fun result (pair : ptr * R) =>
       let rssi_value := rssi_at rssi_dict (mac_address (h pair.1)) in
       amap_set h result pair.1
         (z model rssi_value (RSSI_0 (h pair.1)) (n (h pair.1)) pair.2))
    dist_dict [].

Section Lgamma.
Variable lgamma : R -> R.

(** The accumulation loop of [confidence_score]: the pair
    [(weighted_sig, total_weight)] after the loop. *)
Definition anchor_weight (h : Heap) (anchor : ptr) (z_val : R) : R :=
  let anchor_ewma := ewma (h anchor) in
  1 / (1 + anchor_ewma + z_val ^ 2).

Definition score_sums (h : Heap) (v : Z) (z_dict : AnchorMap) : R * R :=
  fold_left
    (fun (acc : R * R) (e : ptr * R) =>
       let w := anchor_weight h e.1 e.2 in
       (acc.1 + w * Utils.logpdf_student_t lgamma e.2 v, acc.2 + w))
    z_dict (0, 0).

Definition confidence_score (h : Heap) (tag : Tag) (model : PathLossModel)
  (anch_list : list ptr) (v : Z) (scale : R) : R :=
  let z_dict := z_vals h tag model anch_list in
  match z_dict with
  | [] => 0
  | _ =>
      let '(weighted_sig, total_weight) := score_sums h v z_dict in
      let l := weighted_sig / total_weight in
      exp (l / scale)
  end.

(** [error_radius] calls [confidence_score] with its default arguments
    [v = 5], [scale = 2.0]. *)
Definition error_radius (h : Heap) (tag : Tag) (model : PathLossModel)
  (anch_list : list ptr) : R :=
  let p_val := confidence_score h tag model anch_list 5 2 in
  Utils.cep95_from_conf p_val.
End Lgamma.

(** The first loop of [update_anchors_from_tag_data]: parameter updates. *)
Definition update_parameters_loop (rssi_dict : gmap string R)
  (distance_dict : AnchorMap) (h0 : Heap) (significant_anchors : list ptr)
  : Heap :=
  fold_left
    (fun h sign_anchor =>
       let sign_anchor_rssi := rssi_at rssi_dict (mac_address (h sign_anchor)) in
       let sign_anchor_dist := amap_at h distance_dict sign_anchor in
       store h sign_anchor
         (update_parameters (h sign_anchor) sign_anchor_rssi sign_anchor_dist))
    significant_anchors h0.

(** The admission test of the second loop, for one entry of [z_dict]:
    [true] when the loop reaches [update_health] (no [continue]). *)
Definition admitted (h : Heap) (rssi_dict : gmap string R) (max_rssi now deltaR : R)
  (T_vis : Z) (sign_anchor : ptr) : bool :=
  let sign_anchor_rssi := rssi_at rssi_dict (mac_address (h sign_anchor)) in
  let rssi_delta := max_rssi - sign_anchor_rssi in
  let time_since_last_seen :=
    if decide (last_seen (h sign_anchor) <> 0)
    then now - last_seen (h sign_anchor) else 0 in
  negb (bool_decide (time_since_last_seen > IZR T_vis)
        || bool_decide (rssi_delta > deltaR)).

(** The second loop: health updates.  [update_health] is called with its
    default [LAMBDA = Calibration::LAMBDA_EWMA]. *)
Definition update_health_loop (rssi_dict : gmap string R) (max_rssi now deltaR : R)
  (T_vis : Z) (h0 : Heap) (z_dict : AnchorMap) : Heap :=
  fold_left
    (fun h (pair : ptr * R) =>
       let sign_anchor := pair.1 in
       let sign_anchor_z_val := pair.2 in
       if admitted h rssi_dict max_rssi now deltaR T_vis sign_anchor
       then store h sign_anchor
              (update_health (h sign_anchor) sign_anchor_z_val now
                             Calibration.LAMBDA_EWMA)
       else h)
    z_dict h0.

(** The heap after the parameter-update loop. *)
Definition after_parameter_updates (h : Heap) (tag : Tag) (anch_list : list ptr)
  : Heap :=
  let rssi_dict := rssi_readings tag in
  let significant_anchors :=
    get_significant_anchors h tag anch_list Calibration.MAX_SIGNIFICANT_ANCHORS in
  let distance_dict := distances h tag anch_list in
  update_parameters_loop rssi_dict distance_dict h significant_anchors.

Definition update_anchors_from_tag_data (h : Heap) (anch_list : list ptr)
  (inpt_tag : Tag) (inpt_model : PathLossModel) (now deltaR : R) (T_vis : Z)
  : Heap :=
  let rssi_dict := rssi_readings inpt_tag in
  if decide (rssi_dict = ∅) then h
  else
    (* parameter updates *)
    let h1 := after_parameter_updates h inpt_tag anch_list in
    (* health update *)
    let z_dict := z_vals h1 inpt_tag inpt_model anch_list in
    let max_rssi := max_rssi_of rssi_dict in
    update_health_loop rssi_dict max_rssi now deltaR T_vis h1 z_dict.

End Metrics.

(* ================================================================== *)
(** * Properties *)

(* ------------------------------------------------------------------ *)
(** ** utils.cpp *)

Module UtilsProps.
Import Utils.

(** The log-density of Student's t as the documentation of [utils.h] and the
    specification write it, the halves [(v + 1) / 2] and [v / 2] taken in the
    reals.  The constant is the source's approximation of pi. *)
Definition student_t_formula (lgamma : R -> R) (z : R) (v : Z) : R :=
  lgamma ((IZR v + 1) / 2) - lgamma (IZR v / 2)
  - 1 / 2 * ln (IZR v * PI_const)
  - (IZR v + 1) / 2 * log1p (z ^ 2 / IZR v).

(** C2: what the code computes at the default [v = 5].  The second
    [std::lgamma] is called on the truncated quotient [5 / 2 = 2], not on
    [2.5]: the result differs from the documented formula by
    [lgamma 2 - lgamma 2.5], whatever [z] is. *)
Theorem logpdf_student_t_truncates (lgamma : R -> R) (z : R) :
  logpdf_student_t lgamma z 5 =
    lgamma 3 - lgamma 2 - 0.5 * ln (5 * PI_const) - 3 * log1p (z * z / 5) /\
  student_t_formula lgamma z 5 - logpdf_student_t lgamma z 5 =
    lgamma 2 - lgamma 2.5.
Proof.
  unfold logpdf_student_t, student_t_formula.
  change ((5 + 1) ÷ 2)%Z with 3%Z. change (5 ÷ 2)%Z with 2%Z.
  change (IZR (5 + 1)) with 6.
  replace (6 / 2) with 3 by lra.
  replace ((5 + 1) / 2) with 3 by lra.
  replace (5 / 2) with 2.5 by lra.
  replace (z ^ 2) with (z * z) by ring.
  split; lra.
Qed.

(** The straight line through [(x0, y0)] and [(x1, y1)], evaluated at [p]. *)
Definition interp (x0 y0 x1 y1 p : R) : R :=
  y0 + (p - x0) / (x1 - x0) * (y1 - y0).

(** What [cep95_from_conf] computes, branch by branch. *)
Lemma cep95_from_conf_cases (p : R) :
  (p <= 0.05 /\ cep95_from_conf p = 7.4) \/
  (0.05 < p < 0.17 /\ cep95_from_conf p = interp 0.05 7.4 0.17 6.1 p) \/
  (0.17 <= p < 0.43 /\ cep95_from_conf p = interp 0.17 6.1 0.43 4.3 p) \/
  (0.43 <= p < 0.80 /\ cep95_from_conf p = interp 0.43 4.3 0.80 2.5 p) \/
  (0.80 <= p < 0.85 /\ cep95_from_conf p = interp 0.80 2.5 0.85 2.0 p) \/
  (0.85 <= p < 0.90 /\ cep95_from_conf p = interp 0.85 2.0 0.90 1.6 p) \/
  (0.90 <= p < 0.95 /\ cep95_from_conf p = interp 0.90 1.6 0.95 1.2 p) \/
  (0.95 <= p < 0.98 /\ cep95_from_conf p = interp 0.95 1.2 0.98 0.9 p) \/
  (0.98 <= p /\ cep95_from_conf p = 0.9).
Proof.
  unfold cep95_from_conf, cep95_from_table, interp, Calibration.CEP95_TABLE.
  cbn [length Nat.sub table_at nth fst snd cep95_scan Nat.add].
  repeat case_decide; cbn [table_at nth fst snd Nat.add];
    first [ left; split; [lra | reflexivity]
          | right; left; split; [lra | reflexivity]
          | do 2 right; left; split; [lra | reflexivity]
          | do 3 right; left; split; [lra | reflexivity]
          | do 4 right; left; split; [lra | reflexivity]
          | do 5 right; left; split; [lra | reflexivity]
          | do 6 right; left; split; [lra | reflexivity]
          | do 7 right; left; split; [lra | reflexivity]
          | do 8 right; split; [lra | reflexivity]
          | exfalso; lra ].
Qed.

Lemma cep95_from_conf_monotone (p q : R) :
  p <= q -> cep95_from_conf q <= cep95_from_conf p.
Proof.
  intros Hpq.
  destruct (cep95_from_conf_cases p) as [[Hp ->]|[[Hp ->]|[[Hp ->]|[[Hp ->]|
    [[Hp ->]|[[Hp ->]|[[Hp ->]|[[Hp ->]|[Hp ->]]]]]]]]];
  destruct (cep95_from_conf_cases q) as [[Hq ->]|[[Hq ->]|[[Hq ->]|[[Hq ->]|
    [[Hq ->]|[[Hq ->]|[[Hq ->]|[[Hq ->]|[Hq ->]]]]]]]]];
  unfold interp; lra.
Qed.

(** C6.  [cep95_from_conf] returns 7.4 below the first knot and 0.9 above
    the last one, returns the table radius at each of the eight knots (so
    at 0, 1 and 0.80 it gives 7.4, 0.9 and 2.5), is the straight line
    between two adjacent knots, and never increases. *)
Theorem cep95_from_conf_table :
  (forall p, p < 0.05 -> cep95_from_conf p = 7.4) /\
  (forall p, p > 0.98 -> cep95_from_conf p = 0.9) /\
  Forall (fun knot => cep95_from_conf (fst knot) = snd knot)
         Calibration.CEP95_TABLE /\
  cep95_from_conf 0 = 7.4 /\
  cep95_from_conf 1 = 0.9 /\
  cep95_from_conf 0.80 = 2.5 /\
  (forall (i : nat) x0 y0 x1 y1 p,
      Calibration.CEP95_TABLE !! i = Some (x0, y0) ->
      Calibration.CEP95_TABLE !! S i = Some (x1, y1) ->
      x0 <= p <= x1 ->
      cep95_from_conf p = interp x0 y0 x1 y1 p) /\
  (forall p q, 0 <= p -> p <= q -> q <= 1 ->
      cep95_from_conf q <= cep95_from_conf p).
Proof.
  split; [|split; [|split; [|split; [|split; [|split; [|split]]]]]].
  - intros p Hp.
    destruct (cep95_from_conf_cases p) as [[_ ->]|H]; [reflexivity|].
    exfalso; decompose [and or] H; lra.
  - intros p Hp.
    destruct (cep95_from_conf_cases p) as [H|[H|[H|[H|[H|[H|[H|[H|[_ ->]]]]]]]]];
      [exfalso; lra ..|reflexivity].
  - unfold Calibration.CEP95_TABLE.
    repeat apply List.Forall_cons; [..|apply List.Forall_nil]; cbn [fst snd];
    match goal with |- cep95_from_conf ?x = _ =>
      destruct (cep95_from_conf_cases x) as [[Hx ->]|[[Hx ->]|[[Hx ->]|[[Hx ->]|
        [[Hx ->]|[[Hx ->]|[[Hx ->]|[[Hx ->]|[Hx ->]]]]]]]]]
    end; unfold interp; lra.
  - destruct (cep95_from_conf_cases 0) as [[_ ->]|H]; [reflexivity|].
    exfalso; decompose [and or] H; lra.
  - destruct (cep95_from_conf_cases 1) as [H|[H|[H|[H|[H|[H|[H|[H|[_ ->]]]]]]]]];
      [exfalso; lra ..|reflexivity].
  - destruct (cep95_from_conf_cases 0.80) as [[Hx ->]|[[Hx ->]|[[Hx ->]|[[Hx ->]|
        [[Hx ->]|[[Hx ->]|[[Hx ->]|[[Hx ->]|[Hx ->]]]]]]]]]; unfold interp; lra.
  - intros i x0 y0 x1 y1 p H0 H1 Hp.
    unfold Calibration.CEP95_TABLE in H0, H1.
    do 8 (destruct i as [|i]; [cbn in H0, H1; simplify_eq;
      destruct (cep95_from_conf_cases p) as [[Hx ->]|[[Hx ->]|[[Hx ->]|[[Hx ->]|
        [[Hx ->]|[[Hx ->]|[[Hx ->]|[[Hx ->]|[Hx ->]]]]]]]]]; unfold interp; lra|]).
    cbn in H0. discriminate.
  - intros p q _ Hpq _. by apply cep95_from_conf_monotone.
Qed.

(** The statement of [cep95_from_conf_table] used at concrete arguments. *)
Lemma cep95_from_conf_table_witness :
  cep95_from_conf 0.01 = 7.4 /\ cep95_from_conf 0.99 = 0.9 /\
  cep95_from_conf 0.30 = interp 0.17 6.1 0.43 4.3 0.30 /\
  cep95_from_conf 0.6 <= cep95_from_conf 0.3.
Proof.
  destruct cep95_from_conf_table as (Hlo & Hhi & _ & _ & _ & _ & Hlin & Hmono).
  split; [apply Hlo; lra|].
  split; [apply Hhi; lra|].
  split; [apply (Hlin 1%nat); [reflexivity | reflexivity | lra]|].
  apply Hmono; lra.
Defined.

End UtilsProps.

(* ------------------------------------------------------------------ *)
(** ** kalman.cpp *)

Module KalmanProps.
Import Kalman.

(** Population standard deviation and variance of a window, as the two
    [compute...] members evaluate them once the window is long enough. *)
Definition variance (l : list R) : R :=
  sum_sq_dev (accumulate l / size l) l / size l.

Definition stddev (l : list R) : R := sqrt (variance l).

(** The observation coefficient [X] of a step. *)
Definition X_of (k : KalmanFilter) (d_val : R) : R :=
  (-10) * Utils.log10 (Rmax d_val 1e-6 / d_0 k).

(** The innovation [r_val - r_predict] of a step. *)
Definition resid_of (k : KalmanFilter) (RSSI0_i n_i r_val d_val : R) : R :=
  r_val - (1 * RSSI0_i + X_of k d_val * n_i).

Section Step.
Variables (k : KalmanFilter) (RSSI0_i n_i r_val d_val : R).
Let k' := fst (sequence_step k RSSI0_i n_i r_val d_val).

Lemma step_rssi_vals : rssi_vals k' = push_trim (rssi_vals k) r_val.
Proof.
  subst k'; unfold sequence_step.
  destruct (decide (min_required_points <= length (residuals k))%nat); reflexivity.
Qed.

Lemma step_residuals :
  residuals k' = push_trim (residuals k) (resid_of k RSSI0_i n_i r_val d_val).
Proof.
  subst k'; unfold sequence_step.
  destruct (decide (min_required_points <= length (residuals k))%nat); reflexivity.
Qed.

Lemma step_sigma :
  sigma k' =
    if decide (min_required_points <= length (push_trim (rssi_vals k) r_val))%nat
    then beta * stddev (push_trim (rssi_vals k) r_val)
    else sigma k.
Proof.
  subst k'; unfold sequence_step.
  destruct (decide (min_required_points <= length (residuals k))%nat);
    cbn [fst sigma]; case_decide; try reflexivity;
    unfold computeRSSIStdDev; cbn [rssi_vals];
    (case_decide; [lia | reflexivity]).
Qed.

Lemma step_Q_offdiag : Q01 k' = Q01 k /\ Q10 k' = Q10 k.
Proof.
  subst k'; unfold sequence_step.
  destruct (decide (min_required_points <= length (residuals k))%nat);
    split; reflexivity.
Qed.

Lemma step_Q_diag :
  (Q00 k', Q11 k') =
    if decide (min_required_points <= length (residuals k))%nat
    then (alpha * variance (residuals k), alpha * (variance (residuals k) / 100))
    else (Q00 k, Q11 k).
Proof.
  subst k'; unfold sequence_step.
  destruct (decide (min_required_points <= length (residuals k))%nat);
    cbn [fst Q00 Q11]; try reflexivity.
  unfold computeResidualVariance; cbn [residuals].
  case_decide; [lia | reflexivity].
Qed.

Lemma step_d_0 : d_0 k' = d_0 k.
Proof.
  subst k'; unfold sequence_step.
  destruct (decide (min_required_points <= length (residuals k))%nat); reflexivity.
Qed.

End Step.

Lemma push_trim_length (buf : list R) (x : R) :
  length (push_trim buf x) =
    if decide (max_buffer < S (length buf))%nat then length buf
    else S (length buf).
Proof.
  unfold push_trim. rewrite length_app, Nat.add_1_r.
  case_decide.
  - destruct buf; cbn [app tail length]; [reflexivity|].
    rewrite length_app. cbn. lia.
  - rewrite length_app. cbn. lia.
Qed.

Lemma run_snoc (k : KalmanFilter) calls (c : R * R * R * R) :
  run k (calls ++ [c]) =
    fst (sequence_step (run k calls) c.1.1.1 c.1.1.2 c.1.2 c.2).
Proof.
  unfold run. rewrite fold_left_app. cbn [fold_left].
  destruct c as [[[x0 x1] r] d]. reflexivity.
Qed.

Lemma run_lengths calls :
  length (rssi_vals (run init calls)) = Nat.min (length calls) max_buffer /\
  length (residuals (run init calls)) = Nat.min (length calls) max_buffer.
Proof.
  induction calls as [|c calls [IH1 IH2]] using rev_ind; [split; reflexivity|].
  rewrite run_snoc, step_rssi_vals, step_residuals, !push_trim_length.
  rewrite IH1, IH2, length_app. unfold max_buffer in *. cbn [length].
  split; case_decide; lia.
Qed.

(** While the cap is not reached the RSSI window is the list of the
    measurements received so far, oldest first. *)
Lemma run_rssi_vals_short calls :
  (length calls <= max_buffer)%nat ->
  rssi_vals (run init calls) = map (fun c : R * R * R * R => c.1.2) calls.
Proof.
  induction calls as [|c calls IH] using rev_ind; [reflexivity|].
  rewrite length_app. cbn [length]. intros Hlen.
  rewrite run_snoc, step_rssi_vals, map_app, IH by lia. cbn [map].
  unfold push_trim. case_decide as Hcap; [|reflexivity].
  rewrite length_app, length_map in Hcap. cbn [length] in Hcap. lia.
Qed.

(** *** Statistics of a constant window *)

Lemma accumulate_from (l : list R) (a : R) :
  fold_left Rplus l a = a + fold_left Rplus l 0.
Proof.
  revert a. induction l as [|x l IH]; intros a; cbn [fold_left]; [lra|].
  rewrite (IH (a + x)), (IH (0 + x)). lra.
Qed.

Lemma accumulate_const (r : R) (l : list R) :
  Forall (eq r) l -> accumulate l = size l * r.
Proof.
  unfold accumulate, size.
  induction 1 as [|x l <- _ IH]; [cbn; lra|].
  cbn [fold_left]. rewrite accumulate_from, IH.
  change (length (r :: l)) with (S (length l)). rewrite S_INR. lra.
Qed.

Lemma sum_sq_dev_from (m : R) (l : list R) (a : R) :
  fold_left (fun var r => var + (r - m) ^ 2) l a =
  a + fold_left (fun var r => var + (r - m) ^ 2) l 0.
Proof.
  revert a. induction l as [|x l IH]; intros a; cbn [fold_left]; [lra|].
  rewrite (IH (a + _)), (IH (0 + _)). lra.
Qed.

Lemma sum_sq_dev_nonneg (m : R) (l : list R) : 0 <= sum_sq_dev m l.
Proof.
  unfold sum_sq_dev. induction l as [|x l IH]; cbn [fold_left]; [lra|].
  rewrite sum_sq_dev_from. pose proof (pow2_ge_0 (x - m)). lra.
Qed.

Lemma sum_sq_dev_const (r : R) (l : list R) :
  Forall (eq r) l -> sum_sq_dev r l = 0.
Proof.
  unfold sum_sq_dev. induction 1 as [|x l <- _ IH]; [reflexivity|].
  cbn [fold_left]. rewrite sum_sq_dev_from, IH. lra.
Qed.

Lemma size_pos (l : list R) : l <> [] -> 0 < size l.
Proof.
  unfold size. destruct l; [done|]. intros _. apply lt_0_INR. cbn. lia.
Qed.

Lemma stddev_const (r : R) (l : list R) :
  Forall (eq r) l -> l <> [] -> stddev l = 0.
Proof.
  intros Hl Hne. unfold stddev, variance.
  pose proof (size_pos l Hne) as Hs.
  rewrite (accumulate_const r l Hl).
  replace (size l * r / size l) with r by (field; lra).
  rewrite (sum_sq_dev_const r l Hl).
  replace (0 / size l) with 0 by (field; lra).
  apply sqrt_0.
Qed.

Lemma stddev_nonneg (l : list R) : 0 <= stddev l.
Proof. apply sqrt_pos. Qed.

Lemma push_trim_const (r : R) (buf : list R) :
  Forall (eq r) buf -> Forall (eq r) (push_trim buf r).
Proof.
  intros Hbuf. unfold push_trim.
  assert (Forall (eq r) (buf ++ [r])) as Hall.
  { apply Forall_app; split; [done|]. by repeat constructor. }
  case_decide; [|done]. by apply Forall_tail.
Qed.

(** A step whose RSSI window, new sample included, holds at least five
    identical values leaves [sigma] at zero. *)
Lemma degenerate_window_sigma (k : KalmanFilter) (RSSI0_i n_i r_val d_val : R) :
  Forall (eq r_val) (rssi_vals k) ->
  (4 <= length (rssi_vals k))%nat ->
  sigma (fst (sequence_step k RSSI0_i n_i r_val d_val)) = 0.
Proof.
  intros Hall Hlen.
  rewrite step_sigma.
  case_decide as Hge.
  - rewrite (stddev_const r_val); [unfold beta; lra|by apply push_trim_const|].
    intros Hnil. rewrite Hnil in Hge. cbn in Hge. unfold min_required_points in Hge. lia.
  - exfalso. rewrite push_trim_length in Hge.
    unfold min_required_points, max_buffer in *. case_decide; lia.
Qed.

Lemma step_sigma_nonneg (k : KalmanFilter) (RSSI0_i n_i r_val d_val : R) :
  0 <= sigma k -> 0 <= sigma (fst (sequence_step k RSSI0_i n_i r_val d_val)).
Proof.
  intros Hk. rewrite step_sigma. case_decide; [|done].
  pose proof (stddev_nonneg (push_trim (rssi_vals k) r_val)).
  unfold beta. nra.
Qed.

Lemma run_sigma_nonneg calls : 0 <= sigma (run init calls).
Proof.
  induction calls as [|c calls IH] using rev_ind; [cbn; lra|].
  rewrite run_snoc. by apply step_sigma_nonneg.
Qed.

(** *** The adaptation gate *)

Lemma step_gate_closed (k : KalmanFilter) (RSSI0_i n_i r_val d_val : R) :
  let k' := fst (sequence_step k RSSI0_i n_i r_val d_val) in
  (length (rssi_vals k') < min_required_points)%nat ->
  (length (residuals k') < min_required_points)%nat ->
  Q00 k' = Q00 k /\ Q01 k' = Q01 k /\ Q10 k' = Q10 k /\ Q11 k' = Q11 k /\
  sigma k' = sigma k.
Proof.
  intros k'. subst k'.
  rewrite step_rssi_vals, step_residuals, !push_trim_length.
  intros Hr He.
  pose proof (step_Q_diag k RSSI0_i n_i r_val d_val) as HQ.
  pose proof (step_Q_offdiag k RSSI0_i n_i r_val d_val) as [H01 H10].
  rewrite step_sigma, push_trim_length.
  unfold min_required_points, max_buffer in *.
  destruct (decide (5 <= length (residuals k))%nat) as [Hge|Hlt].
  { exfalso. case_decide; lia. }
  inversion HQ as [[H00 H11]].
  repeat split; try done.
  repeat case_decide; first [reflexivity | lia].
Qed.

Lemma run_gate_closed calls :
  (length calls < min_required_points)%nat ->
  let k := run init calls in
  Q00 k = Q00 init /\ Q01 k = Q01 init /\ Q10 k = Q10 init /\ Q11 k = Q11 init /\
  sigma k = sigma init.
Proof.
  induction calls as [|c calls IH] using rev_ind; [by intros _|].
  rewrite length_app. cbn [length]. intros Hlen. cbn zeta in *.
  destruct IH as (I00 & I01 & I10 & I11 & Isig); [lia|].
  rewrite run_snoc.
  pose proof (step_gate_closed (run init calls) c.1.1.1 c.1.1.2 c.1.2 c.2) as Hstep.
  cbn zeta in Hstep.
  rewrite <-!run_snoc in *.
  destruct (run_lengths (calls ++ [c])) as [L1 L2].
  rewrite length_app in L1, L2. cbn [length] in L1, L2.
  unfold min_required_points, max_buffer in *.
  destruct Hstep as (S00 & S01 & S10 & S11 & Ssig); [lia | lia |].
  repeat split; congruence.
Qed.

Lemma step_gate_fired (k : KalmanFilter) (RSSI0_i n_i r_val d_val : R) :
  let k' := fst (sequence_step k RSSI0_i n_i r_val d_val) in
  (min_required_points <= length (residuals k))%nat ->
  Q11 k' = Q00 k' / 100.
Proof.
  intros k' Hge. subst k'.
  pose proof (step_Q_diag k RSSI0_i n_i r_val d_val) as HQ.
  destruct (decide (min_required_points <= length (residuals k))%nat); [|done].
  inversion HQ as [[H00 H11]]. lra.
Qed.

Lemma run_Q_offdiag calls :
  Q01 (run init calls) = 0 /\ Q10 (run init calls) = 0.
Proof.
  induction calls as [|c calls [IH1 IH2]] using rev_ind; [by split|].
  rewrite run_snoc.
  destruct (step_Q_offdiag (run init calls) c.1.1.1 c.1.1.2 c.1.2 c.2) as [-> ->].
  by split.
Qed.

(** C7.  The adaptation gate.  A step after which both windows hold fewer
    than five samples leaves [Q] and [sigma] as they were, so a fresh filter
    keeps its initial [Q] and [sigma = 4] through its first four steps; a
    step that finds at least five residuals in the window sets
    [Q11 = Q00 / 100], which therefore holds from the sixth step of a fresh
    filter on; and the off-diagonal entries of [Q] are never written: they
    are zero after any number of steps. *)
Theorem adaptation_gate :
  (forall k RSSI0_i n_i r_val d_val,
      let k' := fst (sequence_step k RSSI0_i n_i r_val d_val) in
      (length (rssi_vals k') < 5)%nat ->
      (length (residuals k') < 5)%nat ->
      Q00 k' = Q00 k /\ Q01 k' = Q01 k /\ Q10 k' = Q10 k /\ Q11 k' = Q11 k /\
      sigma k' = sigma k) /\
  (forall calls,
      let k := run init calls in
      (length (rssi_vals k) < 5)%nat ->
      (length (residuals k) < 5)%nat ->
      Q00 k = 0.0025 ^ 2 /\ Q01 k = 0 /\ Q10 k = 0 /\ Q11 k = 0.0001 ^ 2 /\
      sigma k = 4) /\
  (forall k RSSI0_i n_i r_val d_val,
      let k' := fst (sequence_step k RSSI0_i n_i r_val d_val) in
      (5 <= length (residuals k))%nat ->
      Q11 k' = Q00 k' / 100) /\
  (forall calls,
      (5 < length calls)%nat ->
      Q11 (run init calls) = Q00 (run init calls) / 100) /\
  (forall k RSSI0_i n_i r_val d_val,
      let k' := fst (sequence_step k RSSI0_i n_i r_val d_val) in
      Q01 k' = Q01 k /\ Q10 k' = Q10 k) /\
  (forall calls, Q01 (run init calls) = 0 /\ Q10 (run init calls) = 0).
Proof.
  split; [exact step_gate_closed|].
  split.
  { intros calls k Hr _. subst k.
    destruct (run_lengths calls) as [L1 _]. rewrite L1 in Hr.
    unfold max_buffer in Hr.
    apply (run_gate_closed calls). unfold min_required_points. lia. }
  split; [exact step_gate_fired|].
  split.
  { intros calls Hlen.
    destruct (exists_last (l := calls)) as (calls' & c & ->).
    { intros ->. cbn in Hlen. lia. }
    rewrite length_app in Hlen. cbn [length] in Hlen.
    rewrite run_snoc. apply step_gate_fired.
    destruct (run_lengths calls') as [_ ->].
    unfold min_required_points, max_buffer. lia. }
  split; [exact step_Q_offdiag | exact run_Q_offdiag].
Qed.

(** The statement of [adaptation_gate] at the four measurements of the
    repository's own test of the closed gate, and after six measurements. *)
Definition four_calls : list (R * R * R * R) :=
  [ (-50, 2, -47, 2.5); (-50, 2, -49, 3); (-50, 2, -51, 3.5); (-50, 2, -53, 4) ].

Lemma adaptation_gate_witness :
  sigma (run init four_calls) = 4 /\
  Q11 (run init (four_calls ++ [(-50, 2, -55, 4.5); (-50, 2, -57, 5)])) =
  Q00 (run init (four_calls ++ [(-50, 2, -55, 4.5); (-50, 2, -57, 5)])) / 100.
Proof.
  destruct adaptation_gate as (_ & Hclosed & _ & Hfired & _).
  split.
  - apply (Hclosed four_calls).
    + rewrite (proj1 (run_lengths four_calls)). cbn. lia.
    + rewrite (proj2 (run_lengths four_calls)). cbn. lia.
  - apply Hfired. cbn. lia.
Defined.

(** *** The adaptation of sigma *)

(** [m] calls that all carry the measurement -60 dBm at one metre. *)
Definition identical_calls (m : nat) : list (R * R * R * R) :=
  replicate m (-59, 2, -60, 1).

(** Five identical measurements into a fresh filter: the fifth step sets
    [sigma] to zero; it does not keep the value 4 that it had after the
    fourth step, and it is not positive. *)
Lemma sigma_driven_to_zero :
  sigma (run init (identical_calls 4)) = 4 /\
  sigma (run init (identical_calls 5)) = 0 /\
  ~ (sigma (run init (identical_calls 5)) > 0).
Proof.
  assert (sigma (run init (identical_calls 5)) = 0) as H5.
  { change (identical_calls 5) with (identical_calls 4 ++ [(-59, 2, -60, 1)]).
    rewrite run_snoc. cbn [fst snd].
    apply degenerate_window_sigma.
    - rewrite run_rssi_vals_short by (cbn; unfold max_buffer; lia).
      cbn. by repeat constructor.
    - rewrite (proj1 (run_lengths _)). cbn. lia. }
  split; [|split; [exact H5 | rewrite H5; lra]].
  apply (run_gate_closed (identical_calls 4)). cbn. unfold min_required_points. lia.
Qed.

(** C3, as the code has it.  A step whose RSSI window, new sample included,
    holds at least five samples overwrites [sigma] with [0.8] times the
    standard deviation of the window, whatever that is: a window of
    identical values sets [sigma] to zero.  [sigma] keeps its prior value
    only when the window is still shorter than five.  After any number of
    steps of a fresh filter [sigma] is non-negative. *)
Theorem sigma_adaptation :
  (forall k RSSI0_i n_i r_val d_val,
      let k' := fst (sequence_step k RSSI0_i n_i r_val d_val) in
      (5 <= length (rssi_vals k'))%nat ->
      sigma k' = 0.8 * stddev (rssi_vals k')) /\
  (forall k RSSI0_i n_i r_val d_val,
      let k' := fst (sequence_step k RSSI0_i n_i r_val d_val) in
      Forall (eq r_val) (rssi_vals k) ->
      (4 <= length (rssi_vals k))%nat ->
      sigma k' = 0) /\
  (forall k RSSI0_i n_i r_val d_val,
      let k' := fst (sequence_step k RSSI0_i n_i r_val d_val) in
      (length (rssi_vals k') < 5)%nat ->
      sigma k' = sigma k) /\
  (forall calls, 0 <= sigma (run init calls)).
Proof.
  split; [|split; [|split]].
  - intros k x0 x1 r d k'. subst k'.
    rewrite step_rssi_vals, step_sigma. intros Hlen.
    unfold min_required_points, beta. case_decide; [reflexivity | lia].
  - intros k x0 x1 r d k'. apply degenerate_window_sigma.
  - intros k x0 x1 r d k'. subst k'.
    rewrite step_rssi_vals, step_sigma. intros Hlen.
    unfold min_required_points. case_decide; [lia | reflexivity].
  - exact run_sigma_nonneg.
Qed.

Lemma sigma_adaptation_witness :
  sigma (fst (sequence_step (run init (identical_calls 4)) (-59) 2 (-60) 1)) = 0.
Proof.
  apply (proj1 (proj2 sigma_adaptation)).
  - rewrite run_rssi_vals_short by (cbn; unfold max_buffer; lia).
    cbn. by repeat constructor.
  - rewrite (proj1 (run_lengths _)). cbn. lia.
Defined.

(** *** The state update *)

(** The innovation variance [S] of a step, from the covariance predicted
    with the adapted [Q] and the adapted [sigma] that the step leaves in the
    filter [k'].  The source divides by [S] without testing it (kalman.cpp,
    lines 67 to 75), and the division of the model is that of the real
    numbers: what is said about the gains, the returned state and the
    updated covariance describes the source where [S] is not zero. *)
Definition innovation_variance (k k' : KalmanFilter) (X : R) : R :=
  let p00 := P00 k + Q00 k' in
  let p01 := P01 k + Q01 k in
  let p10 := P10 k + Q10 k in
  let p11 := P11 k + Q11 k' in
  1 * (p00 * 1 + p01 * X) + X * (p10 * 1 + p11 * X) + sigma k' ^ 2.

(** The gains of a step, from the covariance predicted with the adapted
    [Q] and the adapted [sigma] that the step leaves in the filter [k']. *)
Definition gains (k k' : KalmanFilter) (X : R) : R * R :=
  let p00 := P00 k + Q00 k' in
  let p01 := P01 k + Q01 k in
  let p10 := P10 k + Q10 k in
  let p11 := P11 k + Q11 k' in
  let S := 1 * (p00 * 1 + p01 * X) + X * (p10 * 1 + p11 * X) + sigma k' ^ 2 in
  ((p00 * 1 + p01 * X) / S, (p10 * 1 + p11 * X) / S).

Lemma step_state (k : KalmanFilter) (RSSI0_i n_i r_val d_val : R) :
  let k' := fst (sequence_step k RSSI0_i n_i r_val d_val) in
  let K := gains k k' (X_of k d_val) in
  let e := resid_of k RSSI0_i n_i r_val d_val in
  snd (sequence_step k RSSI0_i n_i r_val d_val) =
    (RSSI0_i + K.1 * e, n_i + K.2 * e).
Proof.
  unfold sequence_step, gains, resid_of, X_of.
  destruct (decide (min_required_points <= length (residuals k))%nat); reflexivity.
Qed.

(** A measurement equal to the prediction leaves the state where it was. *)
Lemma step_state_zero_residual (k : KalmanFilter) (RSSI0_i n_i r_val d_val : R) :
  resid_of k RSSI0_i n_i r_val d_val = 0 ->
  snd (sequence_step k RSSI0_i n_i r_val d_val) = (RSSI0_i, n_i).
Proof.
  intros He. rewrite step_state. cbn zeta. rewrite He. f_equal; ring.
Qed.

(** The updated covariance [(I - K H) P]. *)
Lemma step_P (k : KalmanFilter) (RSSI0_i n_i r_val d_val : R) :
  let k' := fst (sequence_step k RSSI0_i n_i r_val d_val) in
  let X := X_of k d_val in
  let K := gains k k' X in
  let p00 := P00 k + Q00 k' in
  let p01 := P01 k + Q01 k in
  let p10 := P10 k + Q10 k in
  let p11 := P11 k + Q11 k' in
  P00 k' = (1 - K.1 * 1) * p00 + - (K.1 * X) * p10 /\
  P01 k' = (1 - K.1 * 1) * p01 + - (K.1 * X) * p11 /\
  P10 k' = - (K.2 * 1) * p00 + (1 - K.2 * X) * p10 /\
  P11 k' = - (K.2 * 1) * p01 + (1 - K.2 * X) * p11.
Proof.
  unfold sequence_step, gains, X_of.
  destruct (decide (min_required_points <= length (residuals k))%nat);
    by repeat split.
Qed.

Lemma log10_1 : Utils.log10 1 = 0.
Proof. unfold Utils.log10. rewrite ln_1. lra. Qed.

Lemma log10_10 : Utils.log10 10 = 1.
Proof.
  unfold Utils.log10. apply Rdiv_diag.
  apply ln_neq_0; lra.
Qed.

Lemma X_of_init_1 : X_of init 1 = 0.
Proof.
  unfold X_of. cbn [d_0 init].
  rewrite Rmax_left by lra.
  replace (1 / 1) with 1 by lra. rewrite log10_1. lra.
Qed.

Lemma X_of_init_10 : X_of init 10 = -10.
Proof.
  unfold X_of. cbn [d_0 init].
  rewrite Rmax_left by lra.
  replace (10 / 1) with 10 by lra. rewrite log10_10. lra.
Qed.

(** The first step of a fresh filter: both gates are closed. *)
Lemma first_step_state (RSSI0_i n_i r_val d_val : R) :
  let X := X_of init d_val in
  let e := r_val - (1 * RSSI0_i + X * n_i) in
  let p00 := 1 + 0.0025 ^ 2 in
  let p11 := 0.1 + 0.0001 ^ 2 in
  let S := p00 + X * (p11 * X) + 4 ^ 2 in
  snd (sequence_step init RSSI0_i n_i r_val d_val) =
    (RSSI0_i + p00 / S * e, n_i + p11 * X / S * e).
Proof.
  rewrite step_state.
  destruct (step_gate_closed init RSSI0_i n_i r_val d_val)
    as (H00 & _ & _ & H11 & Hsig).
  { rewrite step_rssi_vals, push_trim_length. cbn [rssi_vals init length].
    unfold min_required_points, max_buffer. case_decide; lia. }
  { rewrite step_residuals, push_trim_length. cbn [residuals init length].
    unfold min_required_points, max_buffer. case_decide; lia. }
  cbn zeta. unfold gains, resid_of. rewrite H00, H11, Hsig.
  cbn [Q00 Q01 Q10 Q11 P00 P01 P10 P11 sigma init fst snd].
  f_equal; (apply f_equal2; [reflexivity|]);
    (apply f_equal2; [|reflexivity]);
    unfold Rdiv; (apply f_equal2; [ring | f_equal; ring]).
Qed.

(** *** A zero innovation variance *)

(** [m] calls that all carry the measurement the default parameters
    predict at one metre: -59 dBm. *)
Definition steady_calls (m : nat) : list (R * R * R * R) :=
  replicate m (-59, 2, -59, 1).

Lemma steady_calls_S (m : nat) :
  steady_calls (S m) = steady_calls m ++ [(-59, 2, -59, 1)].
Proof. unfold steady_calls. by rewrite <-replicate_cons_app. Qed.

Lemma run_d_0 calls : d_0 (run init calls) = 1.
Proof.
  induction calls as [|c calls IH] using rev_ind; [reflexivity|].
  by rewrite run_snoc, step_d_0.
Qed.

Lemma X_of_1 (k : KalmanFilter) : d_0 k = 1 -> X_of k 1 = 0.
Proof.
  intros Hd. unfold X_of. rewrite Hd, Rmax_left by lra.
  replace (1 / 1) with 1 by lra. rewrite log10_1. lra.
Qed.

Lemma steady_resid (k : KalmanFilter) :
  d_0 k = 1 -> resid_of k (-59) 2 (-59) 1 = 0.
Proof. intros Hd. unfold resid_of. rewrite X_of_1 by done. lra. Qed.

Lemma steady_windows (m : nat) :
  Forall (eq (-59)) (rssi_vals (run init (steady_calls m))) /\
  Forall (eq 0) (residuals (run init (steady_calls m))).
Proof.
  induction m as [|m [IH1 IH2]]; [split; constructor|].
  rewrite steady_calls_S, run_snoc. cbn [fst snd].
  rewrite step_rssi_vals, step_residuals, steady_resid by apply run_d_0.
  split; by apply push_trim_const.
Qed.

Lemma variance_zeros (l : list R) : Forall (eq 0) l -> variance l = 0.
Proof.
  intros Hl. unfold variance.
  rewrite (accumulate_const 0 l Hl).
  replace (size l * 0 / size l) with 0 by (unfold Rdiv; ring).
  rewrite (sum_sq_dev_const 0 l Hl). unfold Rdiv. ring.
Qed.

(** At one metre [X = 0]: the innovation variance is [P00 + Q00 + sigma^2]
    and the step multiplies the predicted [P00] by [1 - K0]. *)
Lemma steady_step (k : KalmanFilter) :
  d_0 k = 1 ->
  let k' := fst (sequence_step k (-59) 2 (-59) 1) in
  let S := innovation_variance k k' (X_of k 1) in
  S = P00 k + Q00 k' + sigma k' ^ 2 /\
  P00 k' = (1 - (P00 k + Q00 k') / S) * (P00 k + Q00 k').
Proof.
  intros Hd k' S. subst S.
  destruct (step_P k (-59) 2 (-59) 1) as (E00 & _). fold k' in E00.
  rewrite E00. unfold gains, innovation_variance. cbn [fst].
  rewrite X_of_1 by done.
  split; [ring|].
  replace (1 * ((P00 k + Q00 k') * 1 + (P01 k + Q01 k) * 0)
           + 0 * ((P10 k + Q10 k) * 1 + (P11 k + Q11 k') * 0) + sigma k' ^ 2)
    with (P00 k + Q00 k' + sigma k' ^ 2) by ring.
  replace ((P00 k + Q00 k') * 1 + (P01 k + Q01 k) * 0)
    with (P00 k + Q00 k') by ring.
  ring.
Qed.

(** While both gates are closed [P00] stays positive. *)
Lemma steady_P00_pos (m : nat) :
  (m < 5)%nat -> 0 < P00 (run init (steady_calls m)).
Proof.
  induction m as [|m IH]; intros Hm; [cbn; lra|].
  specialize (IH ltac:(lia)).
  destruct (run_gate_closed (steady_calls (S m))) as (H00 & _ & _ & _ & Hsig).
  { unfold steady_calls, min_required_points. rewrite length_replicate. lia. }
  revert H00 Hsig. rewrite steady_calls_S, run_snoc. cbn [fst snd]. intros H00 Hsig.
  destruct (steady_step (run init (steady_calls m)) (run_d_0 _)) as [HS HP].
  rewrite HP, HS, H00, Hsig. cbn [Q00 sigma init].
  set (p := P00 (run init (steady_calls m)) + 0.0025 ^ 2).
  assert (0 < p) by (subst p; lra).
  replace ((1 - p / (p + 4 ^ 2)) * p) with (p * 4 ^ 2 / (p + 4 ^ 2))
    by (field; lra).
  apply Rdiv_lt_0_compat; lra.
Qed.

(** The fifth step closes with [sigma = 0], an untouched [Q00] and
    [P00 = 0]; its innovation variance is still positive. *)
Lemma steady_fifth_step :
  let k := run init (steady_calls 4) in
  let k' := run init (steady_calls 5) in
  0 < innovation_variance k k' (X_of k 1) /\ P00 k' = 0 /\ sigma k' = 0.
Proof.
  intros k k'.
  assert (k' = fst (sequence_step k (-59) 2 (-59) 1)) as Hk'.
  { subst k k'. by rewrite (steady_calls_S 4), run_snoc. }
  destruct (steady_windows 4) as [Hr _]. fold k in Hr.
  assert (length (rssi_vals k) = 4%nat) as L1
    by (subst k; by rewrite (proj1 (run_lengths _))).
  assert (length (residuals k) = 4%nat) as L2
    by (subst k; by rewrite (proj2 (run_lengths _))).
  assert (sigma k' = 0) as Hsig.
  { rewrite Hk'. apply degenerate_window_sigma; [done | lia]. }
  assert (Q00 k' = 0.0025 ^ 2) as HQ.
  { pose proof (step_Q_diag k (-59) 2 (-59) 1) as HQ. rewrite <-Hk' in HQ.
    rewrite decide_False in HQ by (unfold min_required_points; lia).
    apply pair_equal_spec in HQ as [-> _]. subst k.
    destruct (run_gate_closed (steady_calls 4)) as (H00 & _).
    { unfold steady_calls, min_required_points. rewrite length_replicate. lia. }
    exact H00. }
  pose proof (steady_P00_pos 4 ltac:(lia)) as Hpos. fold k in Hpos.
  destruct (steady_step k (run_d_0 _)) as [HS HP]. rewrite <-Hk' in HS, HP.
  rewrite HP, HS, HQ, Hsig.
  set (p := P00 k + 0.0025 ^ 2). assert (0 < p) by (subst p; lra).
  clearbody p. split; [lra|]. split; [|done]. field. lra.
Qed.

(** The sixth step finds five zero residuals and six identical readings:
    [Q00] and [sigma] are set to zero, [P00] is zero already, and the
    innovation variance vanishes. *)
Lemma steady_sixth_step :
  let k := run init (steady_calls 5) in
  let k' := fst (sequence_step k (-59) 2 (-59) 1) in
  innovation_variance k k' (X_of k 1) = 0.
Proof.
  intros k k'.
  destruct (steady_windows 5) as [Hr He]. fold k in Hr, He.
  assert (length (rssi_vals k) = 5%nat) as L1
    by (subst k; by rewrite (proj1 (run_lengths _))).
  assert (length (residuals k) = 5%nat) as L2
    by (subst k; by rewrite (proj2 (run_lengths _))).
  assert (sigma k' = 0) as Hsig.
  { apply degenerate_window_sigma; [done | lia]. }
  assert (Q00 k' = 0) as HQ.
  { pose proof (step_Q_diag k (-59) 2 (-59) 1) as HQ. fold k' in HQ.
    rewrite decide_True in HQ by (unfold min_required_points; lia).
    apply pair_equal_spec in HQ as [-> _].
    rewrite variance_zeros by done. unfold alpha. ring. }
  destruct steady_fifth_step as (_ & HP & _). fold k in HP.
  destruct (steady_step k (run_d_0 _)) as [HS _]. fold k' in HS.
  rewrite HS, HP, HQ, Hsig. ring.
Qed.

(** The innovation variance along the steady stream: positive at the first
    five steps, zero at the sixth. *)
Lemma steady_innovation_variance (m : nat) :
  let k := run init (steady_calls m) in
  let k' := run init (steady_calls (S m)) in
  ((m < 5)%nat -> 0 < innovation_variance k k' (X_of k 1)) /\
  (m = 5%nat -> innovation_variance k k' (X_of k 1) = 0).
Proof.
  intros k k'.
  assert (k' = fst (sequence_step k (-59) 2 (-59) 1)) as Hk'.
  { subst k k'. by rewrite steady_calls_S, run_snoc. }
  split.
  - intros Hm. destruct (decide (m = 4%nat)) as [->|Hne].
    { apply steady_fifth_step. }
    destruct (run_gate_closed (steady_calls (S m))) as (H00 & _ & _ & _ & Hsig).
    { unfold steady_calls, min_required_points. rewrite length_replicate. lia. }
    fold k' in H00, Hsig.
    pose proof (steady_P00_pos m Hm) as Hpos. fold k in Hpos.
    destruct (steady_step k (run_d_0 _)) as [HS _]. rewrite <-Hk' in HS.
    rewrite HS, H00, Hsig. cbn [Q00 sigma init].
    set (p := P00 k) in *. clearbody p. lra.
  - intros ->. rewrite Hk'. apply steady_sixth_step.
Qed.

End KalmanProps.

(* ------------------------------------------------------------------ *)
(** ** models.cpp *)

Module ModelsProps.
Import Models.

(** The innovation of the filter is the distance between the measurement
    and the path-loss mean [mu] taken at the filter's reference distance. *)
Lemma resid_of_mu (k : Kalman.KalmanFilter) (s RSSI0_i n_i r_val d_val : R) :
  KalmanProps.resid_of k RSSI0_i n_i r_val d_val =
  r_val - mu {| d_0 := Kalman.d_0 k; sigma := s |} RSSI0_i n_i d_val.
Proof.
  unfold KalmanProps.resid_of, KalmanProps.X_of, mu. cbn [d_0]. ring.
Qed.

Lemma update_parameters_state (a : Anchor) (measured_rssi estimated_distance : R) :
  let a' := update_parameters a measured_rssi estimated_distance in
  (RSSI_0 a', n a') =
  snd (Kalman.sequence_step (kalman a) (RSSI_0 a) (n a)
                            measured_rssi estimated_distance).
Proof. cbn. by destruct (Kalman.sequence_step _ _ _ _ _) as [? [? ?]]. Qed.

(** A fresh anchor. *)
Definition fresh_anchor : Anchor := new_Anchor "A" (0, 0, 0) 0.

(** A fresh anchor that hears 2000 dBm at one metre ends with a positive
    [RSSI_0]; one that hears 0 dBm at ten metres ends with a negative [n]. *)
Lemma update_parameters_leaves_bounds :
  RSSI_0 (update_parameters fresh_anchor 2000 1) > 0 /\
  n (update_parameters fresh_anchor 0 10) < 0.
Proof.
  split.
  - pose proof (update_parameters_state fresh_anchor 2000 1) as H.
    cbn zeta in H. cbn [fresh_anchor new_Anchor kalman RSSI_0 n] in H.
    rewrite KalmanProps.first_step_state in H. cbn zeta in H.
    rewrite KalmanProps.X_of_init_1 in H.
    apply (f_equal fst) in H. cbn [fst] in H.
    change (new_Anchor "A" (0, 0, 0) 0) with fresh_anchor in H.
    rewrite H. lra.
  - pose proof (update_parameters_state fresh_anchor 0 10) as H.
    cbn zeta in H. cbn [fresh_anchor new_Anchor kalman RSSI_0 n] in H.
    rewrite KalmanProps.first_step_state in H. cbn zeta in H.
    rewrite KalmanProps.X_of_init_10 in H.
    apply (f_equal snd) in H. cbn [snd] in H.
    change (new_Anchor "A" (0, 0, 0) 0) with fresh_anchor in H.
    rewrite H. lra.
Qed.

(** C4, as the code has it.  [update_parameters] stores the pair returned by
    the filter step as it is; nothing clamps or rejects the result.  Where
    the innovation variance [S] of the step is not zero, the stored pair is
    the old value plus gain times innovation, the gains being the quotients
    by [S] of [kalman.cpp] and the innovation being the measured RSSI minus
    the path-loss mean at the estimated distance; there a zero innovation
    leaves both parameters unchanged.  The code does not test [S]: where it
    is zero the quotients are not defined, and nothing is said about the
    stored pair.  The other fields of the anchor are not touched in any
    case. *)
Theorem update_parameters_unclamped (a : Anchor) (measured_rssi estimated_distance : R) :
  let a' := update_parameters a measured_rssi estimated_distance in
  let X := KalmanProps.X_of (kalman a) estimated_distance in
  let S := KalmanProps.innovation_variance (kalman a) (kalman a') X in
  let K := KalmanProps.gains (kalman a) (kalman a') X in
  let e := measured_rssi
           - mu {| d_0 := Kalman.d_0 (kalman a); sigma := 4 |}
                (RSSI_0 a) (n a) estimated_distance in
  (S <> 0 ->
   K.1 * S = (Kalman.P00 (kalman a) + Kalman.Q00 (kalman a'))
             + (Kalman.P01 (kalman a) + Kalman.Q01 (kalman a)) * X /\
   K.2 * S = (Kalman.P10 (kalman a) + Kalman.Q10 (kalman a))
             + (Kalman.P11 (kalman a) + Kalman.Q11 (kalman a')) * X /\
   RSSI_0 a' = RSSI_0 a + K.1 * e /\
   n a' = n a + K.2 * e /\
   (e = 0 -> RSSI_0 a' = RSSI_0 a /\ n a' = n a)) /\
  mac_address a' = mac_address a /\ coord a' = coord a /\
  ewma a' = ewma a /\ last_seen a' = last_seen a.
Proof.
  intros a' X S K e.
  split; [|by repeat split].
  intros HS.
  pose proof (update_parameters_state a measured_rssi estimated_distance) as H.
  cbn zeta in H. fold a' in H.
  rewrite KalmanProps.step_state in H. cbn zeta in H.
  rewrite (resid_of_mu _ 4) in H. fold e in H.
  change (fst (Kalman.sequence_step (kalman a) (RSSI_0 a) (n a)
                 measured_rssi estimated_distance)) with (kalman a') in H.
  fold X K in H. apply pair_equal_spec in H as [H0 H1].
  assert (K.1 * S = (Kalman.P00 (kalman a) + Kalman.Q00 (kalman a'))
                    + (Kalman.P01 (kalman a) + Kalman.Q01 (kalman a)) * X) as HK0.
  { subst K. unfold KalmanProps.gains. cbn [fst].
    fold (KalmanProps.innovation_variance (kalman a) (kalman a') X). fold S.
    field. exact HS. }
  assert (K.2 * S = (Kalman.P10 (kalman a) + Kalman.Q10 (kalman a))
                    + (Kalman.P11 (kalman a) + Kalman.Q11 (kalman a')) * X) as HK1.
  { subst K. unfold KalmanProps.gains. cbn [snd].
    fold (KalmanProps.innovation_variance (kalman a) (kalman a') X). fold S.
    field. exact HS. }
  split; [done|]. split; [done|]. split; [done|]. split; [done|].
  intros He. rewrite H0, H1, He. split; ring.
Qed.

(** A fresh anchor that hears -59 dBm at one metre: the innovation variance
    is positive, the innovation is zero and the parameters stay at their
    defaults. *)
Lemma update_parameters_unclamped_witness :
  RSSI_0 (update_parameters fresh_anchor (-59) 1) = -59 /\
  n (update_parameters fresh_anchor (-59) 1) = 2.
Proof.
  destruct (update_parameters_unclamped fresh_anchor (-59) 1) as [H _].
  apply H.
  - pose proof (KalmanProps.steady_innovation_variance 0) as [Hpos _].
    specialize (Hpos ltac:(lia)).
    intros Hz. apply (Rlt_irrefl 0). rewrite <-Hz at 2. exact Hpos.
  - unfold mu. cbn [d_0 fresh_anchor new_Anchor kalman Kalman.d_0 Kalman.init RSSI_0 n].
    rewrite Rmax_left by lra.
    replace (1 / 1) with 1 by lra. rewrite KalmanProps.log10_1. lra.
Defined.

(** [update_health] keeps a non-negative health score non-negative when
    the smoothing factor lies in [0, 1]. *)
Lemma update_health_ewma_nonneg (a : Anchor) (z now LAMBDA : R) :
  0 <= LAMBDA <= 1 -> 0 <= ewma a -> 0 <= ewma (update_health a z now LAMBDA).
Proof.
  intros HL Ha. cbn [update_health ewma].
  pose proof (pow2_ge_0 z). nra.
Qed.

End ModelsProps.

(* ------------------------------------------------------------------ *)
(** ** metrics.cpp *)

Module MetricsProps.
Import Models Metrics.

(** *** The strongest reading *)

(** [m] is the strongest RSSI of the fix: some anchor reports it and no
    anchor reports more. *)
Definition strongest (rssi_dict : gmap string R) (m : R) : Prop :=
  (exists mac, rssi_dict !! mac = Some m) /\
  (forall mac v, rssi_dict !! mac = Some v -> v <= m).

(** Every reading is a finite [float]: not below [lowest()]. *)
Definition readings_in_range (rssi_dict : gmap string R) : Prop :=
  forall mac v, rssi_dict !! mac = Some v -> FLT_LOWEST <= v.

Lemma max_rssi_of_inv (rssi_dict : gmap string R) :
  (forall mac v, rssi_dict !! mac = Some v -> v <= max_rssi_of rssi_dict) /\
  (max_rssi_of rssi_dict = FLT_LOWEST \/
   exists mac, rssi_dict !! mac = Some (max_rssi_of rssi_dict)).
Proof.
  unfold max_rssi_of.
  apply (map_fold_weak_ind
    (fun r (m : gmap string R) =>
       (forall mac v, m !! mac = Some v -> v <= r) /\
       (r = FLT_LOWEST \/ exists mac, m !! mac = Some r))).
  - split; [|by left]. intros mac v Hl. by rewrite lookup_empty in Hl.
  - intros i x m r Hi [Hub Hatt]. split.
    + intros mac v Hl. destruct (decide (i = mac)) as [->|Hne].
      * rewrite lookup_insert_eq in Hl. simplify_eq. case_decide; lra.
      * rewrite lookup_insert_ne in Hl by done.
        specialize (Hub _ _ Hl). case_decide; lra.
    + case_decide.
      * right. exists i. by rewrite lookup_insert_eq.
      * destruct Hatt as [->|[mac Hmac]]; [by left|].
        right. exists mac. rewrite lookup_insert_ne; [done|].
        intros ->. congruence.
Qed.

Lemma max_rssi_of_strongest (rssi_dict : gmap string R) :
  rssi_dict <> ∅ -> readings_in_range rssi_dict ->
  strongest rssi_dict (max_rssi_of rssi_dict).
Proof.
  intros Hne Hrange.
  destruct (max_rssi_of_inv rssi_dict) as [Hub Hatt].
  split; [|done].
  destruct Hatt as [Hlow|Hatt]; [|done].
  destruct (map_choose rssi_dict Hne) as (mac & v & Hl).
  exists mac. rewrite Hl. f_equal.
  pose proof (Hub _ _ Hl). pose proof (Hrange _ _ Hl). lra.
Qed.

Lemma strongest_unique (rssi_dict : gmap string R) (m1 m2 : R) :
  strongest rssi_dict m1 -> strongest rssi_dict m2 -> m1 = m2.
Proof.
  intros [[k1 H1] U1] [[k2 H2] U2].
  pose proof (U1 _ _ H2). pose proof (U2 _ _ H1). lra.
Qed.

(** *** Sorting *)

Section Sort.
Context {A : Type} (comp : A -> A -> bool).

Lemma sort_insert_perm (x : A) (l : list A) :
  Permutation (sort_insert comp x l) (x :: l).
Proof.
  induction l as [|y l IH]; cbn [sort_insert]; [done|].
  destruct (comp y x); [|done].
  rewrite IH. apply perm_swap.
Qed.

Lemma std_sort_perm (l : list A) : Permutation (std_sort comp l) l.
Proof.
  induction l as [|x l IH]; cbn [std_sort]; [done|].
  rewrite sort_insert_perm. by constructor.
Qed.

Lemma std_sort_length (l : list A) : length (std_sort comp l) = length l.
Proof. apply Permutation_length, std_sort_perm. Qed.

End Sort.

Section SortByKey.
Context {A : Type} (key : A -> R).
Let comp (a b : A) : bool := bool_decide (key a > key b).
Let ge_key (a b : A) : Prop := key a >= key b.

Lemma sort_insert_sorted (x : A) (l : list A) :
  StronglySorted ge_key l -> StronglySorted ge_key (sort_insert comp x l).
Proof.
  induction 1 as [|y l Hl IH Hy]; cbn [sort_insert].
  - repeat constructor.
  - subst comp. cbn beta. case_bool_decide as Hc.
    + constructor; [done|].
      apply List.Forall_forall. intros b Hb.
      apply (Permutation_in _ (sort_insert_perm _ x l)) in Hb.
      destruct Hb as [<-|Hb]; [unfold ge_key; lra|].
      by apply (proj1 (List.Forall_forall _ _) Hy).
    + constructor; [by constructor|].
      constructor; [unfold ge_key; lra|].
      eapply List.Forall_impl; [|exact Hy].
      unfold ge_key. intros b Hb. cbn beta in Hb. lra.
Qed.

Lemma std_sort_sorted (l : list A) : StronglySorted ge_key (std_sort comp l).
Proof.
  induction l as [|x l IH]; cbn [std_sort]; [constructor|].
  by apply sort_insert_sorted.
Qed.

End SortByKey.

Lemma In_firstn {A} (x : A) (k : nat) (l : list A) :
  In x (firstn k l) -> In x l.
Proof.
  revert l. induction k as [|k IH]; intros [|y l]; cbn; try tauto.
  intros [->|Hin]; [by left | right; by apply IH].
Qed.

(** *** Selection of the significant anchors *)

(** The RSSI the fix reports for the anchor at [p]. *)
Definition rssi_of (h : Heap) (rssi_dict : gmap string R) (p : ptr) : R :=
  rssi_at rssi_dict (mac_address (h p)).

(** The three selection conditions, [m] being the strongest RSSI of the
    fix: the anchor has a reading, the reading is within 10 dB of [m], and
    the anchor's health score is below 8. *)
Definition significant (h : Heap) (rssi_dict : gmap string R) (m : R) (p : ptr)
  : Prop :=
  exists r, rssi_dict !! mac_address (h p) = Some r /\ m - r <= 10 /\ ewma (h p) < 8.

#[global] Instance significant_dec h rssi_dict m p :
  Decision (significant h rssi_dict m p).
Proof.
  unfold significant.
  destruct (rssi_dict !! mac_address (h p)) as [r|].
  - destruct (decide (m - r <= 10 /\ ewma (h p) < 8)) as [Hy|Hn].
    + left. by exists r.
    + right. intros (r' & Hr & Hc). simplify_eq. tauto.
  - right. by intros (r' & Hr & _).
Defined.

Lemma keeps_significant h rssi_dict m p :
  keeps h rssi_dict m p = bool_decide (significant h rssi_dict m p).
Proof.
  unfold keeps. symmetry.
  destruct (rssi_dict !! mac_address (h p)) as [r|] eqn:Hl.
  - unfold Calibration.EWMA_THRESHOLD.
    destruct (bool_decide (r >= m - 10)) eqn:H1;
      destruct (bool_decide (ewma (h p) < 8)) eqn:H2; cbn [andb];
      [apply bool_decide_eq_true | apply bool_decide_eq_false ..];
      try apply bool_decide_eq_true in H1; try apply bool_decide_eq_true in H2;
      try apply bool_decide_eq_false in H1; try apply bool_decide_eq_false in H2.
    + exists r. repeat split; [done | lra | done].
    + intros (r' & Hr & Hd & He). rewrite Hl in Hr. simplify_eq. lra.
    + intros (r' & Hr & Hd & He). rewrite Hl in Hr. simplify_eq. lra.
    + intros (r' & Hr & Hd & He). rewrite Hl in Hr. simplify_eq. lra.
  - apply bool_decide_eq_false. intros (r' & Hr & _). by rewrite Hl in Hr.
Qed.

(** What [get_significant_anchors] returns when the fix has readings. *)
Lemma get_significant_anchors_unfold h tag l max_n :
  rssi_readings tag <> ∅ ->
  get_significant_anchors h tag l max_n =
  firstn max_n
    (std_sort (rssi_gt h (rssi_readings tag))
       (List.filter (keeps h (rssi_readings tag) (max_rssi_of (rssi_readings tag))) l)).
Proof.
  intros Hne. unfold get_significant_anchors.
  case_decide; [done|]. case_decide; [done|].
  symmetry. apply firstn_all2. lia.
Qed.

Lemma get_significant_anchors_empty h tag l max_n :
  rssi_readings tag = ∅ -> get_significant_anchors h tag l max_n = [].
Proof. intros He. unfold get_significant_anchors. by case_decide. Qed.

(** Every selected anchor is a candidate that passed the filter. *)
Lemma significant_in_filter h tag l max_n p :
  In p (get_significant_anchors h tag l max_n) ->
  In p l /\
  keeps h (rssi_readings tag) (max_rssi_of (rssi_readings tag)) p = true.
Proof.
  destruct (decide (rssi_readings tag = ∅)) as [He|Hne].
  { by rewrite get_significant_anchors_empty. }
  rewrite get_significant_anchors_unfold by done. intros Hin.
  apply In_firstn in Hin.
  apply (Permutation_in _ (std_sort_perm _ _)) in Hin.
  by apply List.filter_In in Hin.
Qed.

(** Every selected anchor has a reading in the fix: the [at] calls on the
    RSSI map never take their exceptional branch. *)
Lemma significant_in_map h tag l max_n p :
  In p (get_significant_anchors h tag l max_n) ->
  exists r, rssi_readings tag !! mac_address (h p) = Some r /\
            rssi_of h (rssi_readings tag) p = r.
Proof.
  intros [_ Hk]%significant_in_filter. unfold keeps in Hk.
  unfold rssi_of, rssi_at.
  destruct (rssi_readings tag !! mac_address (h p)) as [r|]; [|done].
  by exists r.
Qed.

(** C5.  When the fix has no reading nothing is selected.  Otherwise, [m]
    being the strongest RSSI of the fix, the selected anchors are the first
    [min 5 (number of survivors)] entries of an arrangement by descending RSSI
    of the survivors: the candidates that have a reading, within 10 dB of
    [m], and a health score below 8. *)
Theorem get_significant_anchors_spec (h : Heap) (tag : Tag) (l : list ptr) :
  let rssi_dict := rssi_readings tag in
  let out := get_significant_anchors h tag l Calibration.MAX_SIGNIFICANT_ANCHORS in
  readings_in_range rssi_dict ->
  (rssi_dict = ∅ -> out = []) /\
  (forall m, strongest rssi_dict m ->
     let survivors := filter (significant h rssi_dict m) l in
     exists rest,
       Permutation (out ++ rest) survivors /\
       StronglySorted (fun a b => rssi_of h rssi_dict a >= rssi_of h rssi_dict b)
                      (out ++ rest) /\
       length out = Nat.min 5 (length survivors)).
Proof.
  intros rssi_dict out Hrange. subst out.
  split; [apply get_significant_anchors_empty|].
  intros m Hm survivors.
  assert (rssi_dict <> ∅) as Hne.
  { intros He. destruct Hm as [[mac Hmac] _]. by rewrite He, lookup_empty in Hmac. }
  assert (max_rssi_of rssi_dict = m) as Hmax.
  { eapply strongest_unique; [by apply max_rssi_of_strongest | done]. }
  rewrite get_significant_anchors_unfold by done. fold rssi_dict. rewrite Hmax.
  set (sorted := std_sort (rssi_gt h rssi_dict) (List.filter (keeps h rssi_dict m) l)).
  assert (List.filter (keeps h rssi_dict m) l = survivors) as Hsurv.
  { subst survivors. clear. induction l as [|p l IH]; [done|].
    cbn [List.filter]. rewrite filter_cons, keeps_significant.
    case_bool_decide as Hs; case_decide; try done. by rewrite IH. }
  exists (skipn Calibration.MAX_SIGNIFICANT_ANCHORS sorted).
  rewrite firstn_skipn. split; [|split].
  - subst sorted. by rewrite std_sort_perm, Hsurv.
  - apply (std_sort_sorted (rssi_of h rssi_dict)).
  - rewrite length_firstn. subst sorted. by rewrite std_sort_length, Hsurv.
Qed.

(** *** What the selection reads *)

(** Two heaps agree on what the selection reads of the candidates: the MAC
    address and the health score. *)
Definition selection_agree (h h' : Heap) (l : list ptr) : Prop :=
  forall p, In p l ->
    mac_address (h' p) = mac_address (h p) /\ ewma (h' p) = ewma (h p).

Lemma sort_insert_ext_in {A} (comp comp' : A -> A -> bool) (x : A) (l : list A) :
  (forall y, In y l -> comp y x = comp' y x) ->
  sort_insert comp x l = sort_insert comp' x l.
Proof.
  induction l as [|y l IH]; intros Hext; cbn [sort_insert]; [done|].
  rewrite <-(Hext y) by (by left).
  destruct (comp y x); [|done].
  f_equal. apply IH. intros z Hz. apply Hext. by right.
Qed.

Lemma std_sort_ext_in {A} (comp comp' : A -> A -> bool) (l : list A) :
  (forall a b, In a l -> In b l -> comp a b = comp' a b) ->
  std_sort comp l = std_sort comp' l.
Proof.
  induction l as [|x l IH]; intros Hext; cbn [std_sort]; [done|].
  rewrite <-IH by (intros a b Ha Hb; apply Hext; by right).
  apply sort_insert_ext_in. intros y Hy.
  apply (Permutation_in _ (std_sort_perm comp l)) in Hy.
  apply Hext; [by right | by left].
Qed.

Lemma get_significant_anchors_ext h h' tag l max_n :
  selection_agree h h' l ->
  get_significant_anchors h' tag l max_n = get_significant_anchors h tag l max_n.
Proof.
  intros Hag. unfold get_significant_anchors.
  case_decide; [done|].
  set (rssi_dict := rssi_readings tag).
  assert (List.filter (keeps h' rssi_dict (max_rssi_of rssi_dict)) l
          = List.filter (keeps h rssi_dict (max_rssi_of rssi_dict)) l) as ->.
  { apply List.filter_ext_in. intros p Hp.
    destruct (Hag p Hp) as [Hmac Hew]. unfold keeps. by rewrite Hmac, Hew. }
  set (keep := List.filter _ l).
  assert (std_sort (rssi_gt h' rssi_dict) keep = std_sort (rssi_gt h rssi_dict) keep)
    as ->; [|done].
  apply std_sort_ext_in. intros a b Ha Hb.
  apply List.filter_In in Ha as [Ha _]. apply List.filter_In in Hb as [Hb _].
  unfold rssi_gt.
  by rewrite (proj1 (Hag a Ha)), (proj1 (Hag b Hb)).
Qed.

(** *** Maps keyed by anchor *)

Definition mac_of (h : Heap) (p : ptr) : string := mac_address (h p).

Definition same_macs (h h' : Heap) : Prop :=
  forall p, mac_address (h' p) = mac_address (h p).

Lemma amap_at_ext h h' m k :
  same_macs h h' -> amap_at h' m k = amap_at h m k.
Proof.
  intros Hm. induction m as [|[k' v'] m IH]; cbn [amap_at]; [done|].
  unfold same_key. by rewrite !Hm, IH.
Qed.

Lemma amap_set_fresh h m k v :
  ~ In (mac_of h k) (map (fun e : ptr * R => mac_of h e.1) m) ->
  amap_set h m k v = m ++ [(k, v)].
Proof.
  induction m as [|[k' v'] m IH]; cbn [amap_set map In app fst]; [done|].
  intros Hnin. unfold same_key. case_bool_decide as Heq.
  - exfalso. apply Hnin. by left.
  - f_equal. apply IH. tauto.
Qed.

Lemma amap_set_keys h m k v q :
  In q (map fst (amap_set h m k v)) -> q = k \/ In q (map fst m).
Proof.
  induction m as [|[k' v'] m IH]; cbn [amap_set map In fst].
  - intros [<-|[]]. by left.
  - destruct (same_key h k' k); cbn [map In fst]; [tauto|].
    intros [<-|Hin]; [tauto|]. destruct (IH Hin); tauto.
Qed.

Lemma amap_at_In h m k v :
  NoDup (map (fun e : ptr * R => mac_of h e.1) m) ->
  In (k, v) m -> amap_at h m k = v.
Proof.
  induction m as [|[k' v'] m IH]; cbn [amap_at map In fst]; [done|].
  intros Hnd Hin. apply NoDup_cons in Hnd as [Hnin Hnd].
  unfold same_key. destruct Hin as [Heq|Hin].
  - simplify_eq. by rewrite bool_decide_eq_true_2.
  - rewrite bool_decide_eq_false_2; [by apply IH|].
    intros Hmac. apply Hnin. apply list_elem_of_In.
    apply in_map_iff. exists (k, v). split; [|done]. unfold mac_of. by cbn.
Qed.

(** Filling a map from a list of entries whose keys are pairwise distinct
    (by MAC) and absent from the map: the entries are appended in order. *)
Lemma fold_amap_set_fresh {X} h (kf : X -> ptr) (vf : X -> R) (xs : list X)
  (acc : AnchorMap) :
  NoDup (map (fun e : ptr * R => mac_of h e.1) acc
         ++ map (fun x => mac_of h (kf x)) xs) ->
  fold_left (fun res x => amap_set h res (kf x) (vf x)) xs acc =
  acc ++ map (fun x => (kf x, vf x)) xs.
Proof.
  revert acc. induction xs as [|x xs IH]; intros acc Hnd; cbn [fold_left map].
  - by rewrite app_nil_r.
  - cbn [map] in Hnd.
    rewrite amap_set_fresh.
    + rewrite IH.
      * by rewrite <-app_assoc.
      * rewrite map_app. cbn [map fst]. rewrite <-app_assoc. exact Hnd.
    + apply NoDup_app in Hnd as (_ & Hdis & _).
      intros Hin. apply (Hdis (mac_of h (kf x))).
      * by apply list_elem_of_In.
      * apply list_elem_of_In. by left.
Qed.

Lemma fold_amap_set_keys {X} h (kf : X -> ptr) (vf : X -> R) (xs : list X)
  (acc : AnchorMap) q :
  In q (map fst (fold_left (fun res x => amap_set h res (kf x) (vf x)) xs acc)) ->
  In q (map fst acc) \/ In q (map kf xs).
Proof.
  revert acc. induction xs as [|x xs IH]; intros acc; cbn [fold_left map In].
  - tauto.
  - intros Hin. destruct (IH _ Hin) as [Hq|Hq]; [|tauto].
    apply amap_set_keys in Hq. destruct Hq as [->|Hq]; tauto.
Qed.

(** The map has an entry whose key equals [k] (carries the same MAC). *)
Definition has_key (h : Heap) (m : AnchorMap) (k : ptr) : Prop :=
  exists e, In e m /\ mac_of h e.1 = mac_of h k.

Lemma amap_set_has_key h m k v q :
  mac_of h q = mac_of h k \/ has_key h m q -> has_key h (amap_set h m k v) q.
Proof.
  induction m as [|[k' v'] m IH]; cbn [amap_set].
  - intros [Hq|(e & [] & _)]. exists (k, v). split; [by left | done].
  - unfold same_key. case_bool_decide as Hk; intros [Hq|(e & [<-|He] & Hm)].
    + exists (k', v). split; [by left|]. unfold mac_of in *. cbn. congruence.
    + exists (k', v). split; [by left | done].
    + exists e. split; [by right | done].
    + destruct IH as (e & He & Hm); [by left|].
      exists e. split; [by right | done].
    + exists (k', v'). split; [by left | done].
    + destruct IH as (e' & He' & Hm'); [right; by exists e|].
      exists e'. split; [by right | done].
Qed.

Lemma fold_amap_set_has_key {X} h (kf : X -> ptr) (vf : X -> R) (xs : list X)
  (acc : AnchorMap) q :
  has_key h acc q \/ In q (map kf xs) ->
  has_key h (fold_left (fun res x => amap_set h res (kf x) (vf x)) xs acc) q.
Proof.
  revert acc. induction xs as [|x xs IH]; intros acc; cbn [fold_left map In].
  - tauto.
  - intros [Hacc|[<-|Hin]]; apply IH; try tauto; left; apply amap_set_has_key; tauto.
Qed.

(** *** Distances and z-scores *)

(** The candidates carry pairwise distinct MAC addresses. *)
Definition unique_macs (h : Heap) (l : list ptr) : Prop :=
  NoDup (map (mac_of h) l).

Definition dist_of (h : Heap) (tag : Tag) (p : ptr) : R :=
  Utils.R3_distance (coord (h p)) (est_coord tag).

(** The z-score of the anchor at [p] from the parameters it holds in [h]. *)
Definition z_of (h : Heap) (tag : Tag) (model : PathLossModel) (p : ptr) : R :=
  z model (rssi_of h (rssi_readings tag) p) (RSSI_0 (h p)) (n (h p))
    (dist_of h tag p).

Abbreviation significant_anchors h tag l :=
  (get_significant_anchors h tag l Calibration.MAX_SIGNIFICANT_ANCHORS).

Lemma NoDup_map_filter {A B} (f : A -> B) (g : A -> bool) (l : list A) :
  NoDup (map f l) -> NoDup (map f (List.filter g l)).
Proof.
  induction l as [|x l IH]; cbn [map List.filter]; [done|].
  intros [Hnin Hnd]%NoDup_cons.
  destruct (g x); cbn [map]; [|by apply IH].
  apply NoDup_cons. split; [|by apply IH].
  intros Hin. apply Hnin.
  apply list_elem_of_In, in_map_iff in Hin as (y & <- & Hy).
  apply list_elem_of_In, in_map_iff. exists y. split; [done|].
  by apply List.filter_In in Hy as [Hy _].
Qed.

Lemma NoDup_map_firstn {A B} (f : A -> B) (k : nat) (l : list A) :
  NoDup (map f l) -> NoDup (map f (firstn k l)).
Proof.
  rewrite <-(firstn_skipn k l) at 1. rewrite map_app.
  by intros (H & _ & _)%NoDup_app.
Qed.

Lemma unique_macs_significant h tag l max_n :
  unique_macs h l -> unique_macs h (get_significant_anchors h tag l max_n).
Proof.
  unfold unique_macs. intros Hnd.
  destruct (decide (rssi_readings tag = ∅)) as [He|Hne].
  { rewrite get_significant_anchors_empty by done. constructor. }
  rewrite get_significant_anchors_unfold by done.
  apply NoDup_map_firstn.
  rewrite std_sort_perm.
  by apply NoDup_map_filter.
Qed.

Lemma unique_macs_NoDup h l : unique_macs h l -> NoDup l.
Proof. apply (NoDup_fmap_1 (mac_of h)). Qed.

Lemma distances_keys h tag l q :
  In q (map fst (distances h tag l)) -> In q (significant_anchors h tag l).
Proof.
  unfold distances. intros Hin.
  apply (fold_amap_set_keys h (fun p : ptr => p)) in Hin as [[]|Hin].
  by rewrite map_id in Hin.
Qed.

Lemma z_vals_keys h tag model l q :
  In q (map fst (z_vals h tag model l)) -> In q (significant_anchors h tag l).
Proof.
  unfold z_vals. intros Hin.
  apply (fold_amap_set_keys h fst) in Hin as [[]|Hin].
  by apply distances_keys.
Qed.

(** Every significant anchor has an entry in the distance map: the call
    [distance_dict.at(sign_anchor)] never takes its exceptional branch. *)
Lemma distances_has_key h tag l p :
  In p (significant_anchors h tag l) -> has_key h (distances h tag l) p.
Proof.
  intros Hin. unfold distances.
  apply (fold_amap_set_has_key h (fun q : ptr => q)). right. by rewrite map_id.
Qed.

Lemma distances_unique h tag l :
  unique_macs h l ->
  distances h tag l =
  map (fun p => (p, dist_of h tag p)) (significant_anchors h tag l).
Proof.
  intros Hu. unfold distances.
  apply (fold_amap_set_fresh h (fun p : ptr => p) (dist_of h tag) _ []).
  cbn [map app]. by apply unique_macs_significant.
Qed.

Lemma z_vals_unique h tag model l :
  unique_macs h l ->
  z_vals h tag model l =
  map (fun p => (p, z_of h tag model p)) (significant_anchors h tag l).
Proof.
  intros Hu. unfold z_vals. rewrite distances_unique by done.
  rewrite (fold_amap_set_fresh h fst
             (fun pair : ptr * R =>
                z model (rssi_at (rssi_readings tag) (mac_address (h pair.1)))
                  (RSSI_0 (h pair.1)) (n (h pair.1)) pair.2) _ []).
  - cbn [app]. by rewrite map_map.
  - cbn [map app]. rewrite map_map. cbn [fst].
    by apply unique_macs_significant.
Qed.

Lemma z_vals_nil h tag model l :
  significant_anchors h tag l = [] -> z_vals h tag model l = [].
Proof. intros He. unfold z_vals, distances. by rewrite He. Qed.

(** *** The two loops of the orchestrator *)

Lemma store_eq h p a : store h p a p = a.
Proof. unfold store. by rewrite decide_True. Qed.

Lemma store_ne h p a q : q <> p -> store h p a q = h q.
Proof. intros Hne. unfold store. by rewrite decide_False. Qed.

(** The fields no parameter update writes. *)
Definition same_static (a b : Anchor) : Prop :=
  mac_address a = mac_address b /\ coord a = coord b /\
  ewma a = ewma b /\ last_seen a = last_seen b.


Lemma update_parameters_loop_static rssi_dict dd sig h0 p :
  same_static (update_parameters_loop rssi_dict dd h0 sig p) (h0 p).
Proof.
  unfold update_parameters_loop.
  revert h0. induction sig as [|a sig IH]; intros h0; cbn [fold_left].
  - by repeat split.
  - destruct (IH (store h0 a (update_parameters (h0 a)
                   (rssi_at rssi_dict (mac_address (h0 a))) (amap_at h0 dd a))))
      as (H1 & H2 & H3 & H4).
    unfold same_static. rewrite H1, H2, H3, H4.
    destruct (decide (p = a)) as [->|Hne].
    + rewrite store_eq. by repeat split.
    + rewrite store_ne by done. by repeat split.
Qed.

Lemma update_parameters_loop_frame rssi_dict dd sig h0 p :
  ~ In p sig -> update_parameters_loop rssi_dict dd h0 sig p = h0 p.
Proof.
  unfold update_parameters_loop.
  revert h0. induction sig as [|a sig IH]; intros h0 Hnin; cbn [fold_left]; [done|].
  rewrite IH by (intros Hin; apply Hnin; by right).
  apply store_ne. intros ->. apply Hnin. by left.
Qed.

Lemma update_parameters_loop_at rssi_dict dd sig h0 p :
  NoDup sig -> In p sig ->
  update_parameters_loop rssi_dict dd h0 sig p =
  update_parameters (h0 p) (rssi_at rssi_dict (mac_address (h0 p)))
                    (amap_at h0 dd p).
Proof.
  revert h0. induction sig as [|a sig IH]; intros h0 Hnd Hin; [done|].
  apply NoDup_cons in Hnd as [Hnin Hnd].
  change (update_parameters_loop rssi_dict dd h0 (a :: sig)) with
    (update_parameters_loop rssi_dict dd
       (store h0 a (update_parameters (h0 a)
          (rssi_at rssi_dict (mac_address (h0 a))) (amap_at h0 dd a))) sig).
  set (h1 := store h0 a _).
  destruct (decide (p = a)) as [->|Hne].
  - rewrite update_parameters_loop_frame.
    + subst h1. by rewrite store_eq.
    + intros Ha. apply Hnin. by apply list_elem_of_In.
  - destruct Hin as [->|Hin]; [done|].
    rewrite IH by done.
    assert (h1 p = h0 p) as -> by (subst h1; by apply store_ne).
    f_equal. apply amap_at_ext. intros q. subst h1.
    destruct (decide (q = a)) as [->|Hq].
    + by rewrite store_eq.
    + by rewrite store_ne.
Qed.

Lemma admitted_ext h h' rssi_dict max_rssi now deltaR T_vis p :
  mac_address (h' p) = mac_address (h p) ->
  last_seen (h' p) = last_seen (h p) ->
  admitted h' rssi_dict max_rssi now deltaR T_vis p =
  admitted h rssi_dict max_rssi now deltaR T_vis p.
Proof. intros Hm Hl. unfold admitted. by rewrite Hm, Hl. Qed.

Section HealthLoop.
Variables (rssi_dict : gmap string R) (max_rssi now deltaR : R) (T_vis : Z).
Let loop := update_health_loop rssi_dict max_rssi now deltaR T_vis.
Local Abbreviation adm h := (admitted h rssi_dict max_rssi now deltaR T_vis).

Lemma update_health_loop_cons h0 k zk z_dict :
  loop h0 ((k, zk) :: z_dict) =
  loop (if adm h0 k
        then store h0 k (update_health (h0 k) zk now Calibration.LAMBDA_EWMA)
        else h0) z_dict.
Proof. reflexivity. Qed.


Lemma update_health_loop_frame h0 z_dict p :
  ~ In p (map fst z_dict) -> loop h0 z_dict p = h0 p.
Proof.
  revert h0. induction z_dict as [|[k zk] z_dict IH]; intros h0 Hnin; [done|].
  rewrite update_health_loop_cons.
  rewrite IH by (intros Hin; apply Hnin; by right).
  destruct (adm h0 k); [|done].
  apply store_ne. intros ->. apply Hnin. by left.
Qed.

Lemma update_health_loop_not_admitted h0 z_dict p :
  adm h0 p = false -> loop h0 z_dict p = h0 p.
Proof.
  revert h0. induction z_dict as [|[k zk] z_dict IH]; intros h0 Hadm; [done|].
  rewrite update_health_loop_cons.
  destruct (adm h0 k) eqn:Hk; [|by apply IH].
  assert (k <> p) as Hne by (intros ->; congruence).
  rewrite IH.
  - by apply store_ne.
  - rewrite <-Hadm.
    apply admitted_ext; by rewrite store_ne.
Qed.

Lemma update_health_loop_at h0 z_dict p zp :
  NoDup (map fst z_dict) -> In (p, zp) z_dict ->
  loop h0 z_dict p =
  if adm h0 p
  then update_health (h0 p) zp now Calibration.LAMBDA_EWMA
  else h0 p.
Proof.
  revert h0. induction z_dict as [|[k zk] z_dict IH]; intros h0 Hnd Hin; [done|].
  cbn [map fst] in Hnd. apply NoDup_cons in Hnd as [Hnin Hnd].
  rewrite update_health_loop_cons.
  assert (In (p, zp) z_dict -> In p (map fst z_dict)) as Hkey.
  { intros H. apply in_map_iff. by exists (p, zp). }
  destruct Hin as [Heq|Hin].
  - simplify_eq. rewrite update_health_loop_frame.
    + destruct (adm h0 p); [by rewrite store_eq | done].
    + intros H. apply Hnin. by apply list_elem_of_In.
  - assert (p <> k) as Hne.
    { intros ->. apply Hnin. by apply list_elem_of_In, Hkey. }
    rewrite IH by done.
    assert ((if adm h0 k
             then store h0 k (update_health (h0 k) zk now Calibration.LAMBDA_EWMA)
             else h0) p = h0 p) as Hp.
    { destruct (adm h0 k); [by apply store_ne | done]. }
    rewrite Hp.
    by rewrite (admitted_ext h0 _ _ _ _ _ _ p) by (by rewrite Hp).
Qed.

Lemma update_health_loop_ewma_nonneg h0 z_dict :
  (forall p, 0 <= ewma (h0 p)) -> forall p, 0 <= ewma (loop h0 z_dict p).
Proof.
  revert h0. induction z_dict as [|[k zk] z_dict IH]; intros h0 Hnn; [done|].
  rewrite update_health_loop_cons. apply IH.
  intros q. destruct (adm h0 k); [|done].
  destruct (decide (q = k)) as [->|Hne].
  - rewrite store_eq. apply ModelsProps.update_health_ewma_nonneg; [|done].
    unfold Calibration.LAMBDA_EWMA. lra.
  - by rewrite store_ne.
Qed.

End HealthLoop.

(** *** The orchestrator *)

Section Orchestrator.
Variables (h : Heap) (l : list ptr) (tag : Tag) (model : PathLossModel).
Variables (now deltaR : R) (T_vis : Z).

Let rssi_dict := rssi_readings tag.
Let h1 := after_parameter_updates h tag l.
Let h2 := update_anchors_from_tag_data h l tag model now deltaR T_vis.
Local Abbreviation adm g :=
  (admitted g rssi_dict (max_rssi_of rssi_dict) now deltaR T_vis).

Lemma after_parameter_updates_static p : same_static (h1 p) (h p).
Proof. apply update_parameters_loop_static. Qed.

Lemma after_parameter_updates_selection max_n :
  get_significant_anchors h1 tag l max_n = get_significant_anchors h tag l max_n.
Proof.
  apply get_significant_anchors_ext. intros p _.
  destruct (after_parameter_updates_static p) as (Hm & _ & He & _). by split.
Qed.

Lemma after_parameter_updates_frame p :
  ~ In p (significant_anchors h tag l) -> h1 p = h p.
Proof. apply update_parameters_loop_frame. Qed.

Lemma after_parameter_updates_at p :
  unique_macs h l -> In p (significant_anchors h tag l) ->
  h1 p = update_parameters (h p) (rssi_of h rssi_dict p) (dist_of h tag p).
Proof.
  intros Hu Hin. subst h1. unfold after_parameter_updates.
  rewrite update_parameters_loop_at; [|by eapply unique_macs_NoDup,
    unique_macs_significant | done].
  unfold rssi_of, rssi_dict. f_equal.
  apply amap_at_In.
  - rewrite distances_unique by done. rewrite map_map. cbn [fst].
    by apply unique_macs_significant.
  - rewrite distances_unique by done. apply in_map_iff. by exists p.
Qed.

Lemma update_anchors_unfold :
  rssi_dict <> ∅ ->
  h2 = update_health_loop rssi_dict (max_rssi_of rssi_dict) now deltaR T_vis
         h1 (z_vals h1 tag model l).
Proof.
  intros Hne. subst h2. unfold update_anchors_from_tag_data.
  by rewrite decide_False.
Qed.

Lemma update_anchors_empty : rssi_dict = ∅ -> h2 = h.
Proof.
  intros He. subst h2. unfold update_anchors_from_tag_data.
  by rewrite decide_True.
Qed.

Lemma adm_after_parameter_updates p : adm h1 p = adm h p.
Proof.
  destruct (after_parameter_updates_static p) as (Hm & _ & _ & Hl).
  by apply admitted_ext.
Qed.

Lemma significant_nonempty_readings p :
  In p (significant_anchors h tag l) -> rssi_dict <> ∅.
Proof.
  intros Hin He. by rewrite get_significant_anchors_empty in Hin.
Qed.

(** Anchors outside the significant set are not written. *)
Lemma orchestrator_frame p :
  ~ In p (significant_anchors h tag l) -> h2 p = h p.
Proof.
  intros Hnin.
  destruct (decide (rssi_dict = ∅)) as [He|Hne].
  { by rewrite update_anchors_empty. }
  rewrite update_anchors_unfold by done.
  rewrite update_health_loop_frame.
  - by apply after_parameter_updates_frame.
  - intros Hk. apply z_vals_keys in Hk.
    by rewrite after_parameter_updates_selection in Hk.
Qed.

(** An anchor that fails the admission test keeps the state the parameter
    loop left it in. *)
Lemma orchestrator_not_admitted p : adm h p = false -> h2 p = h1 p.
Proof.
  intros Hadm.
  destruct (decide (rssi_dict = ∅)) as [He|Hne].
  { rewrite update_anchors_empty by done. symmetry.
    apply after_parameter_updates_frame.
    rewrite get_significant_anchors_empty by done. intros []. }
  rewrite update_anchors_unfold by done.
  apply update_health_loop_not_admitted.
  by rewrite <-Hadm, <-adm_after_parameter_updates.
Qed.

(** The state of a significant anchor after the fix, when the candidates
    carry distinct MAC addresses: the parameter update first, then, if the
    anchor is admitted, the health update with the z-score that the updated
    parameters give. *)
Lemma orchestrator_at p :
  unique_macs h l -> In p (significant_anchors h tag l) ->
  let a1 := update_parameters (h p) (rssi_of h rssi_dict p) (dist_of h tag p) in
  let z_post := z model (rssi_of h rssi_dict p) (RSSI_0 a1) (n a1) (dist_of h tag p) in
  h2 p = if adm h p
         then update_health a1 z_post now Calibration.LAMBDA_EWMA
         else a1.
Proof.
  intros Hu Hin a1 z_post.
  pose proof (significant_nonempty_readings p Hin) as Hne.
  assert (unique_macs h1 l) as Hu1.
  { unfold unique_macs. erewrite map_ext; [exact Hu|].
    intros q. unfold mac_of.
    by destruct (after_parameter_updates_static q) as (-> & _). }
  pose proof (after_parameter_updates_at p Hu Hin) as Hp1. fold a1 in Hp1.
  destruct (after_parameter_updates_static p) as (Hm & Hc & _ & _).
  rewrite update_anchors_unfold by done.
  rewrite (update_health_loop_at _ _ _ _ _ _ _ p (z_of h1 tag model p)).
  - rewrite adm_after_parameter_updates.
    assert (z_of h1 tag model p = z_post) as ->; [|by rewrite Hp1].
    unfold z_of, z_post, rssi_of, dist_of. fold rssi_dict.
    by rewrite Hm, Hc, Hp1.
  - rewrite z_vals_unique by done. rewrite map_map. cbn [fst]. rewrite map_id.
    rewrite after_parameter_updates_selection.
    by eapply unique_macs_NoDup, unique_macs_significant.
  - rewrite z_vals_unique by done. apply in_map_iff. exists p. split; [done|].
    by rewrite after_parameter_updates_selection.
Qed.

End Orchestrator.

(** C1, as the code has it.  [z_vals] is called after the parameter loop:
    for candidates with distinct MAC addresses, an admitted significant
    anchor ends the fix as [update_health] applied to the anchor returned by
    [update_parameters], with the z-score computed from the [RSSI_0] and [n]
    that [update_parameters] has just stored. *)
Theorem health_update_uses_updated_parameters
  (h : Heap) (l : list ptr) (tag : Tag) (model : PathLossModel)
  (now deltaR : R) (T_vis : Z) (p : ptr) :
  let rssi_dict := rssi_readings tag in
  let r := rssi_of h rssi_dict p in
  let d := dist_of h tag p in
  let a1 := update_parameters (h p) r d in
  let z_post := z model r (RSSI_0 a1) (n a1) d in
  unique_macs h l ->
  In p (significant_anchors h tag l) ->
  admitted h rssi_dict (max_rssi_of rssi_dict) now deltaR T_vis p = true ->
  update_anchors_from_tag_data h l tag model now deltaR T_vis p =
    update_health a1 z_post now Calibration.LAMBDA_EWMA.
Proof.
  intros rssi_dict r d a1 z_post Hu Hin Hadm.
  pose proof (orchestrator_at h l tag model now deltaR T_vis p Hu Hin) as H.
  cbn zeta in H. subst z_post a1 d r rssi_dict. by rewrite Hadm in H.
Qed.

(** C8, as the code has it.  A fix writes only to its significant anchors:
    candidates that have a reading within 10 dB of the strongest one and a
    health score below 8.  An anchor that fails the admission test keeps its
    [ewma] and [last_seen], but if it is significant its parameters and
    filter are updated all the same.  For candidates with distinct MAC
    addresses the state of each significant anchor after the fix is the
    parameter update followed, only if admitted, by the health update. *)
Theorem orchestrator_writes
  (h : Heap) (l : list ptr) (tag : Tag) (model : PathLossModel)
  (now deltaR : R) (T_vis : Z) :
  let rssi_dict := rssi_readings tag in
  let m := max_rssi_of rssi_dict in
  let h2 := update_anchors_from_tag_data h l tag model now deltaR T_vis in
  (forall p, ~ In p (significant_anchors h tag l) -> h2 p = h p) /\
  (forall p, In p (significant_anchors h tag l) ->
     In p l /\
     exists r, rssi_dict !! mac_address (h p) = Some r /\
               m - r <= 10 /\ ewma (h p) < 8) /\
  (forall p, admitted h rssi_dict m now deltaR T_vis p = false ->
     ewma (h2 p) = ewma (h p) /\ last_seen (h2 p) = last_seen (h p)) /\
  (unique_macs h l ->
   forall p, In p (significant_anchors h tag l) ->
     let a1 := update_parameters (h p) (rssi_of h rssi_dict p) (dist_of h tag p) in
     let z_post :=
       z model (rssi_of h rssi_dict p) (RSSI_0 a1) (n a1) (dist_of h tag p) in
     h2 p = if admitted h rssi_dict m now deltaR T_vis p
            then update_health a1 z_post now Calibration.LAMBDA_EWMA
            else a1).
Proof.
  intros rssi_dict m h2. split; [|split; [|split]].
  - intros p. apply orchestrator_frame.
  - intros p Hin. destruct (significant_in_filter _ _ _ _ _ Hin) as [Hl Hk].
    split; [done|].
    rewrite keeps_significant in Hk. by apply bool_decide_eq_true in Hk.
  - intros p Hadm. subst h2.
    rewrite (orchestrator_not_admitted h l tag model now deltaR T_vis p Hadm).
    by destruct (after_parameter_updates_static h l tag p) as (_ & _ & -> & ->).
  - intros Hu p Hin. by apply orchestrator_at.
Qed.

(** *** A fix with one anchor *)

(** One anchor "A" at the origin, fresh except for its [last_seen]; the tag
    is one metre away and hears it at -50 dBm. *)
Definition one_anchor_heap (seen : R) : Heap :=
  fun _ => new_Anchor "A" (0, 0, 0) seen.

Definition one_reading_tag : Tag :=
  {| tag_mac_address := "T"; est_coord := (1, 0, 0);
     rssi_readings := {[ "A" := -50 ]} |}.

Lemma FLT_LOWEST_lt : FLT_LOWEST < -1000.
Proof.
  unfold FLT_LOWEST.
  assert (1024 <= 2 ^ 127) as H.
  { change 127%nat with (10 + 117)%nat. rewrite pow_add.
    assert (1 <= 2 ^ 117) by (apply pow_R1_Rle; lra).
    assert (2 ^ 10 = 1024) as -> by lra. lra. }
  assert (0 < / 2 ^ 23 < 1) as H23.
  { split; [apply Rinv_0_lt_compat, pow_lt; lra|].
    rewrite <-Rinv_1. apply Rinv_lt_contravar; [|apply Rlt_pow_R1; [lra|lia]].
    rewrite Rmult_1_l. apply pow_lt; lra. }
  nra.
Qed.

Lemma max_rssi_of_singleton (mac : string) (r : R) :
  FLT_LOWEST < r -> max_rssi_of {[ mac := r ]} = r.
Proof.
  intros Hr. unfold max_rssi_of. rewrite map_fold_singleton.
  by rewrite decide_True.
Qed.

Lemma one_reading_max : max_rssi_of (rssi_readings one_reading_tag) = -50.
Proof.
  apply max_rssi_of_singleton. pose proof FLT_LOWEST_lt. lra.
Qed.

Lemma one_reading_in_range : readings_in_range (rssi_readings one_reading_tag).
Proof.
  unfold one_reading_tag. cbn [rssi_readings].
  intros mac v [_ <-]%lookup_singleton_Some. pose proof FLT_LOWEST_lt. lra.
Qed.

Lemma one_reading_nonempty : rssi_readings one_reading_tag <> ∅.
Proof. apply insert_non_empty. Qed.

Lemma one_anchor_significant (seen : R) :
  significant_anchors (one_anchor_heap seen) one_reading_tag [0%nat] = [0%nat].
Proof.
  rewrite get_significant_anchors_unfold by apply one_reading_nonempty.
  rewrite one_reading_max.
  cbn [List.filter]. unfold keeps.
  cbn [one_anchor_heap new_Anchor mac_address ewma one_reading_tag rssi_readings].
  rewrite lookup_singleton_eq.
  rewrite !bool_decide_eq_true_2; [reflexivity | | lra].
  unfold Calibration.EWMA_THRESHOLD. lra.
Qed.

Lemma one_anchor_unique (seen : R) : unique_macs (one_anchor_heap seen) [0%nat].
Proof. unfold unique_macs. cbn [map]. apply NoDup_singleton. Qed.

Lemma one_anchor_rssi (seen : R) :
  rssi_of (one_anchor_heap seen) (rssi_readings one_reading_tag) 0%nat = -50.
Proof.
  unfold rssi_of, rssi_at.
  cbn [one_anchor_heap new_Anchor mac_address one_reading_tag rssi_readings].
  by rewrite lookup_singleton_eq.
Qed.

Lemma one_anchor_dist (seen : R) :
  dist_of (one_anchor_heap seen) one_reading_tag 0%nat = 1.
Proof.
  unfold dist_of, Utils.R3_distance.
  cbn [one_anchor_heap new_Anchor coord one_reading_tag est_coord].
  replace ((0 - 1) ^ 2 + (0 - 0) ^ 2 + (0 - 0) ^ 2) with 1 by lra.
  apply sqrt_1.
Qed.

(** The parameters of the anchor after it has heard -50 dBm at one metre. *)
Lemma one_anchor_updated (seen : R) :
  let a1 := update_parameters (one_anchor_heap seen 0%nat) (-50) 1 in
  RSSI_0 a1 = -59 + (1 + 0.0025 ^ 2) / (1 + 0.0025 ^ 2 + 16) * 9 /\ n a1 = 2.
Proof.
  intros a1.
  pose proof (ModelsProps.update_parameters_state (one_anchor_heap seen 0%nat) (-50) 1)
    as H.
  cbn zeta in H. fold a1 in H.
  cbn [one_anchor_heap new_Anchor kalman RSSI_0 n] in H.
  rewrite KalmanProps.first_step_state in H. cbn zeta in H.
  rewrite KalmanProps.X_of_init_1 in H.
  apply pair_equal_spec in H as [-> ->]. split; [|lra].
  f_equal. f_equal; [f_equal|]; lra.
Qed.

Lemma z_at_one_metre (model_sigma rssi rssi0 n0 : R) :
  z {| d_0 := 1; sigma := model_sigma |} rssi rssi0 n0 1 = (rssi - rssi0) / model_sigma.
Proof.
  unfold z, mu. cbn [d_0 sigma]. rewrite Rmax_left by lra.
  replace (1 / 1) with 1 by lra. rewrite KalmanProps.log10_1.
  f_equal. lra.
Qed.

Lemma one_anchor_admitted (now : R) :
  admitted (one_anchor_heap 0) (rssi_readings one_reading_tag)
    (max_rssi_of (rssi_readings one_reading_tag)) now 12 6000 0%nat = true.
Proof.
  unfold admitted. rewrite one_reading_max.
  change (rssi_at (rssi_readings one_reading_tag)
            (mac_address (one_anchor_heap 0 0%nat)))
    with (rssi_of (one_anchor_heap 0) (rssi_readings one_reading_tag) 0%nat).
  rewrite one_anchor_rssi.
  cbn [one_anchor_heap new_Anchor last_seen].
  rewrite decide_False by (intros H; by apply H).
  rewrite !bool_decide_eq_false_2; [reflexivity | lra | lra].
Qed.

Lemma one_anchor_stale :
  admitted (one_anchor_heap 1) (rssi_readings one_reading_tag)
    (max_rssi_of (rssi_readings one_reading_tag)) 10000 12 6000 0%nat = false.
Proof.
  unfold admitted.
  cbn [one_anchor_heap new_Anchor last_seen].
  rewrite decide_True by lra.
  rewrite (bool_decide_eq_true_2 (10000 - 1 > 6000)) by lra. reflexivity.
Qed.

(** The fix of the one-anchor scenario, the anchor never seen before: it
    is admitted, and the health score it ends with is not the one that the
    z-score of its old parameters would give. *)
Lemma health_update_not_from_old_parameters :
  admitted (one_anchor_heap 0) (rssi_readings one_reading_tag)
    (max_rssi_of (rssi_readings one_reading_tag)) 1000 12 6000 0%nat = true /\
  ewma (update_anchors_from_tag_data (one_anchor_heap 0) [0%nat] one_reading_tag
          new_PathLossModel 1000 12 6000 0%nat)
  <> Calibration.LAMBDA_EWMA
       * z_of (one_anchor_heap 0) one_reading_tag new_PathLossModel 0%nat ^ 2
     + (1 - Calibration.LAMBDA_EWMA) * ewma (one_anchor_heap 0 0%nat).
Proof.
  split; [apply one_anchor_admitted|].
  rewrite orchestrator_at;
    [|apply one_anchor_unique | rewrite one_anchor_significant; by left].
  cbn zeta. rewrite one_anchor_admitted.
  unfold z_of. rewrite one_anchor_rssi, one_anchor_dist.
  destruct (one_anchor_updated 0) as [H0 H1]. cbn zeta in H0, H1.
  cbn [update_health ewma]. rewrite H0, H1.
  unfold new_PathLossModel. rewrite !z_at_one_metre.
  cbn [update_parameters one_anchor_heap new_Anchor ewma RSSI_0 n].
  unfold Calibration.LAMBDA_EWMA. lra.
Qed.

Lemma health_update_uses_updated_parameters_witness :
  update_anchors_from_tag_data (one_anchor_heap 0) [0%nat] one_reading_tag
    new_PathLossModel 1000 12 6000 0%nat =
  update_health
    (update_parameters (one_anchor_heap 0 0%nat)
       (rssi_of (one_anchor_heap 0) (rssi_readings one_reading_tag) 0%nat)
       (dist_of (one_anchor_heap 0) one_reading_tag 0%nat))
    (z new_PathLossModel
       (rssi_of (one_anchor_heap 0) (rssi_readings one_reading_tag) 0%nat)
       (RSSI_0 (update_parameters (one_anchor_heap 0 0%nat)
          (rssi_of (one_anchor_heap 0) (rssi_readings one_reading_tag) 0%nat)
          (dist_of (one_anchor_heap 0) one_reading_tag 0%nat)))
       (n (update_parameters (one_anchor_heap 0 0%nat)
          (rssi_of (one_anchor_heap 0) (rssi_readings one_reading_tag) 0%nat)
          (dist_of (one_anchor_heap 0) one_reading_tag 0%nat)))
       (dist_of (one_anchor_heap 0) one_reading_tag 0%nat))
    1000 Calibration.LAMBDA_EWMA.
Proof.
  apply (health_update_uses_updated_parameters (one_anchor_heap 0) [0%nat]
           one_reading_tag new_PathLossModel 1000 12 6000 0%nat).
  - apply one_anchor_unique.
  - rewrite one_anchor_significant. by left.
  - apply one_anchor_admitted.
Defined.

(** The same fix for an anchor last seen at time 1, processed at time
    10000: the anchor has a reading, it fails the admission test (9999 ms
    exceed [T_vis = 6000]), and its [RSSI_0] is changed all the same. *)
Lemma stale_anchor_is_written :
  rssi_readings one_reading_tag !! mac_address (one_anchor_heap 1 0%nat) = Some (-50) /\
  admitted (one_anchor_heap 1) (rssi_readings one_reading_tag)
    (max_rssi_of (rssi_readings one_reading_tag)) 10000 12 6000 0%nat = false /\
  RSSI_0 (update_anchors_from_tag_data (one_anchor_heap 1) [0%nat] one_reading_tag
            new_PathLossModel 10000 12 6000 0%nat)
  <> RSSI_0 (one_anchor_heap 1 0%nat).
Proof.
  split; [apply lookup_singleton_eq|]. split; [apply one_anchor_stale|].
  rewrite orchestrator_at;
    [|apply one_anchor_unique | rewrite one_anchor_significant; by left].
  cbn zeta. rewrite one_anchor_stale.
  rewrite one_anchor_rssi, one_anchor_dist.
  destruct (one_anchor_updated 1) as [H0 _]. cbn zeta in H0. rewrite H0.
  cbn [one_anchor_heap new_Anchor RSSI_0]. lra.
Qed.

Lemma orchestrator_writes_witness :
  update_anchors_from_tag_data (one_anchor_heap 1) [0%nat] one_reading_tag
    new_PathLossModel 10000 12 6000 1%nat = one_anchor_heap 1 1%nat /\
  ewma (update_anchors_from_tag_data (one_anchor_heap 1) [0%nat] one_reading_tag
          new_PathLossModel 10000 12 6000 0%nat) = 1.
Proof.
  destruct (orchestrator_writes (one_anchor_heap 1) [0%nat] one_reading_tag
              new_PathLossModel 10000 12 6000) as (Hframe & _ & Hadm & _).
  split.
  - apply Hframe. rewrite one_anchor_significant. intros [H|[]]. discriminate.
  - apply (Hadm 0%nat one_anchor_stale).
Defined.

Lemma get_significant_anchors_spec_witness :
  exists rest,
    Permutation
      (significant_anchors (one_anchor_heap 0) one_reading_tag [0%nat] ++ rest)
      (filter (significant (one_anchor_heap 0) (rssi_readings one_reading_tag) (-50))
              [0%nat]) /\
    length (significant_anchors (one_anchor_heap 0) one_reading_tag [0%nat]) =
    Nat.min 5 (length (filter (significant (one_anchor_heap 0)
                                 (rssi_readings one_reading_tag) (-50)) [0%nat])).
Proof.
  destruct (get_significant_anchors_spec (one_anchor_heap 0) one_reading_tag
              [0%nat] one_reading_in_range) as [_ H].
  destruct (H (-50)) as (rest & Hperm & _ & Hlen).
  - rewrite <-one_reading_max. apply max_rssi_of_strongest.
    + apply one_reading_nonempty.
    + apply one_reading_in_range.
  - exists rest. by split.
Defined.

(** *** The confidence score *)

Lemma significant_anchors_nil h tag max_n :
  get_significant_anchors h tag [] max_n = [].
Proof.
  unfold get_significant_anchors. case_decide; [done|].
  cbn [List.filter std_sort length]. case_decide; [|done]. by destruct max_n.
Qed.

Lemma cep95_from_conf_0 : Utils.cep95_from_conf 0 = 7.4.
Proof.
  destruct (UtilsProps.cep95_from_conf_cases 0) as [[_ ->]|H]; [reflexivity|].
  exfalso; decompose [and or] H; lra.
Qed.

(** C9.  With no candidate, or with no reading in the fix, no anchor is
    significant; and when no anchor is significant the confidence score is
    0 and the error radius is the first radius of the table, 7.4, in every
    heap that agrees with the given one on the two fields the selection
    reads (MAC address and health score of the candidates). *)
Theorem no_significant_anchor (lgamma : R -> R) (h : Heap) (tag : Tag)
  (model : PathLossModel) (l : list ptr) :
  significant_anchors h tag [] = [] /\
  (rssi_readings tag = ∅ -> significant_anchors h tag l = []) /\
  (significant_anchors h tag l = [] ->
   forall h', selection_agree h h' l ->
     (forall v scale, confidence_score lgamma h' tag model l v scale = 0) /\
     error_radius lgamma h' tag model l = 7.4).
Proof.
  split; [apply significant_anchors_nil|].
  split; [apply get_significant_anchors_empty|].
  intros Hnil h' Hag.
  assert (z_vals h' tag model l = []) as Hz.
  { apply z_vals_nil. by rewrite (get_significant_anchors_ext h h'). }
  assert (forall v scale, confidence_score lgamma h' tag model l v scale = 0) as Hc.
  { intros v scale. unfold confidence_score. by rewrite Hz. }
  split; [done|].
  unfold error_radius. rewrite Hc. apply cep95_from_conf_0.
Qed.

Lemma no_significant_anchor_witness :
  error_radius (fun _ => 0) (one_anchor_heap 0)
    {| tag_mac_address := "T"; est_coord := (1, 0, 0); rssi_readings := ∅ |}
    new_PathLossModel [0%nat] = 7.4.
Proof.
  destruct (no_significant_anchor (fun _ => 0) (one_anchor_heap 0)
              {| tag_mac_address := "T"; est_coord := (1, 0, 0);
                 rssi_readings := ∅ |}
              new_PathLossModel [0%nat]) as (_ & Hempty & H).
  apply (H (Hempty eq_refl) (one_anchor_heap 0)). by intros p _.
Defined.

Lemma anchor_weight_pos h p z_val :
  0 <= ewma (h p) ->
  0 < 1 + ewma (h p) + z_val ^ 2 /\ 0 < anchor_weight h p z_val.
Proof.
  intros He. pose proof (pow2_ge_0 z_val).
  assert (0 < 1 + ewma (h p) + z_val ^ 2) by lra.
  split; [done|]. unfold anchor_weight.
  apply Rdiv_lt_0_compat; lra.
Qed.

Lemma score_sums_total_weight lgamma h v z_dict (acc : R * R) :
  (forall e, In e z_dict -> 0 < anchor_weight h e.1 e.2) ->
  let out :=
    fold_left
      (fun (acc : R * R) (e : ptr * R) =>
         let w := anchor_weight h e.1 e.2 in
         (acc.1 + w * Utils.logpdf_student_t lgamma e.2 v, acc.2 + w))
      z_dict acc in
  acc.2 <= out.2 /\ (z_dict <> [] -> acc.2 < out.2).
Proof.
  revert acc. induction z_dict as [|e z_dict IH]; intros acc Hw; cbn [fold_left].
  - split; [lra | done].
  - cbn zeta.
    destruct (IH (acc.1 + anchor_weight h e.1 e.2
                          * Utils.logpdf_student_t lgamma e.2 v,
                  acc.2 + anchor_weight h e.1 e.2)) as [Hle _].
    { intros e' He'. apply Hw. by right. }
    cbn zeta in Hle. cbn [snd] in Hle.
    pose proof (Hw e (or_introl eq_refl)).
    split; [lra | intros _; lra].
Qed.

Lemma z_vals_entry_candidate h tag model l p z_val :
  In (p, z_val) (z_vals h tag model l) -> In p l.
Proof.
  intros Hin.
  assert (In p (map fst (z_vals h tag model l))) as Hk.
  { apply in_map_iff. by exists (p, z_val). }
  apply z_vals_keys in Hk. by apply significant_in_filter in Hk as [Hl _].
Qed.

(** C10.  [confidence_score] does not divide by zero.  When the candidates'
    health scores are non-negative, either the z-score map is empty and the
    score is 0 with no division made, or each term [1 + ewma + z^2] is
    positive, each weight is positive, and the total weight that divides the
    weighted sum is positive.  Non-negative health scores are what a fresh
    anchor ([ewma = 1]) has and what [update_health] with a factor in [0, 1]
    preserves, whatever real z-score it is handed. *)
Theorem confidence_score_divisors_positive (lgamma : R -> R) (h : Heap) (tag : Tag)
  (model : PathLossModel) (l : list ptr) (v : Z) (scale : R) :
  (forall p, In p l -> 0 <= ewma (h p)) ->
  let z_dict := z_vals h tag model l in
  (z_dict = [] -> confidence_score lgamma h tag model l v scale = 0) /\
  (forall p z_val, In (p, z_val) z_dict ->
     0 < 1 + ewma (h p) + z_val ^ 2 /\ 0 < anchor_weight h p z_val) /\
  (z_dict <> [] ->
     0 < (score_sums lgamma h v z_dict).2 /\
     confidence_score lgamma h tag model l v scale =
       exp ((score_sums lgamma h v z_dict).1 / (score_sums lgamma h v z_dict).2
            / scale)) /\
  (forall mac c t, ewma (new_Anchor mac c t) = 1) /\
  (forall a z_val t LAMBDA,
     0 <= LAMBDA <= 1 -> 0 <= ewma a -> 0 <= ewma (update_health a z_val t LAMBDA)).
Proof.
  intros Hnn z_dict.
  assert (forall p z_val, In (p, z_val) z_dict ->
            0 < 1 + ewma (h p) + z_val ^ 2 /\ 0 < anchor_weight h p z_val) as Hw.
  { intros p z_val Hin. apply anchor_weight_pos, Hnn.
    by eapply z_vals_entry_candidate. }
  split; [|split; [done|split; [|split; [done|]]]].
  - intros Hz. unfold confidence_score. fold z_dict. by rewrite Hz.
  - intros Hne.
    destruct (score_sums_total_weight lgamma h v z_dict (0, 0)) as [_ Hlt].
    { intros [p z_val] Hin. by apply Hw. }
    cbn zeta in Hlt. specialize (Hlt Hne). cbn [snd] in Hlt.
    split; [exact Hlt|].
    unfold confidence_score. fold z_dict.
    destruct z_dict as [|e z_dict']; [done|].
    by destruct (score_sums lgamma h v (e :: z_dict')) as [ws tw].
  - apply ModelsProps.update_health_ewma_nonneg.
Qed.

Lemma confidence_score_divisors_positive_witness :
  0 < (score_sums (fun _ => 0) (one_anchor_heap 0) 5
         (z_vals (one_anchor_heap 0) one_reading_tag new_PathLossModel [0%nat])).2.
Proof.
  destruct (confidence_score_divisors_positive (fun _ => 0) (one_anchor_heap 0)
              one_reading_tag new_PathLossModel [0%nat] 5 2) as (_ & _ & H & _).
  - intros p _. cbn [one_anchor_heap new_Anchor ewma]. lra.
  - apply H.
    rewrite z_vals_unique by apply one_anchor_unique.
    by rewrite one_anchor_significant.
Defined.

End MetricsProps.

(* ================================================================== *)
(** * Further properties of the code *)

(* ------------------------------------------------------------------ *)
(** ** utils.cpp: distance, log-density, table lookup *)

Module UtilsMore.
Import Utils.

Lemma sum_sq_nonneg (x y z : R) : 0 <= x ^ 2 + y ^ 2 + z ^ 2.
Proof. pose proof (pow2_ge_0 x). pose proof (pow2_ge_0 y). pose proof (pow2_ge_0 z). lra. Qed.

(** X1.  [R3_distance] is a metric on points: it is never negative, it is
    zero exactly between a point and itself, it does not depend on the order
    of its arguments, and it satisfies the triangle inequality. *)
Theorem R3_distance_metric (a b c : PointR3) :
  0 <= R3_distance a b /\
  R3_distance a a = 0 /\
  (R3_distance a b = 0 -> a = b) /\
  R3_distance a b = R3_distance b a /\
  R3_distance a c <= R3_distance a b + R3_distance b c.
Proof.
  destruct a as [[a0 a1] a2], b as [[b0 b1] b2], c as [[c0 c1] c2].
  unfold R3_distance.
  split; [apply sqrt_pos|].
  split.
  { replace ((a0 - a0) ^ 2 + (a1 - a1) ^ 2 + (a2 - a2) ^ 2) with 0 by ring.
    apply sqrt_0. }
  split.
  { intros H. apply sqrt_eq_0 in H; [|apply sum_sq_nonneg].
    pose proof (pow2_ge_0 (a0 - b0)) as G0. pose proof (pow2_ge_0 (a1 - b1)) as G1.
    pose proof (pow2_ge_0 (a2 - b2)) as G2.
    assert ((a0 - b0) ^ 2 = 0) as E0 by lra.
    assert ((a1 - b1) ^ 2 = 0) as E1 by lra.
    assert ((a2 - b2) ^ 2 = 0) as E2 by lra.
    assert (a0 = b0) by nra. assert (a1 = b1) by nra. assert (a2 = b2) by nra.
    by subst. }
  split.
  { f_equal. ring. }
  set (u0 := a0 - b0). set (u1 := a1 - b1). set (u2 := a2 - b2).
  set (v0 := b0 - c0). set (v1 := b1 - c1). set (v2 := b2 - c2).
  replace (a0 - c0) with (u0 + v0) by (subst u0 v0; ring).
  replace (a1 - c1) with (u1 + v1) by (subst u1 v1; ring).
  replace (a2 - c2) with (u2 + v2) by (subst u2 v2; ring).
  set (B := u0 ^ 2 + u1 ^ 2 + u2 ^ 2). set (C := v0 ^ 2 + v1 ^ 2 + v2 ^ 2).
  assert (0 <= B) as HB by apply sum_sq_nonneg.
  assert (0 <= C) as HC by apply sum_sq_nonneg.
  pose proof (sqrt_pos B) as HsB. pose proof (sqrt_pos C) as HsC.
  pose proof (sqrt_sqrt B HB) as HqB. pose proof (sqrt_sqrt C HC) as HqC.
  set (sb := sqrt B) in *. set (sc := sqrt C) in *.
  set (dot := u0 * v0 + u1 * v1 + u2 * v2).
  assert (dot ^ 2 <= B * C) as Hcs.
  { subst dot B C.
    pose proof (pow2_ge_0 (u0 * v1 - u1 * v0)).
    pose proof (pow2_ge_0 (u0 * v2 - u2 * v0)).
    pose proof (pow2_ge_0 (u1 * v2 - u2 * v1)).
    nra. }
  assert (dot <= sb * sc) as Hdot.
  { destruct (Rle_lt_dec dot (sb * sc)) as [|Hgt]; [done|].
    exfalso.
    assert (0 <= sb * sc) by nra.
    assert ((sb * sc) ^ 2 < dot ^ 2) by nra.
    assert ((sb * sc) ^ 2 = B * C) by nra.
    lra. }
  replace (sb + sc) with (sqrt ((sb + sc) ^ 2)).
  - apply sqrt_le_1_alt. subst B C dot. nra.
  - replace ((sb + sc) ^ 2) with (Rsqr (sb + sc)) by (unfold Rsqr; ring).
    apply sqrt_Rsqr. lra.
Qed.

Lemma R3_distance_metric_witness :
  R3_distance (0, 0, 0) (3, 0, 0)
  <= R3_distance (0, 0, 0) (3, 4, 0) + R3_distance (3, 4, 0) (3, 0, 0).
Proof. apply (R3_distance_metric (0, 0, 0) (3, 4, 0) (3, 0, 0)). Defined.



(** X3.  Whatever the confidence, [cep95_from_conf] returns a radius
    between the last and the first radius of the table; and for a
    confidence strictly inside the table the scanning loop stops at the
    segment that brackets it, before the last entry: the lookup
    [table[i + 1]] stays inside the table. *)
Theorem cep95_from_conf_bracket (p : R) :
  0.9 <= cep95_from_conf p <= 7.4 /\
  (0.05 < p < 0.98 ->
   let i := cep95_scan Calibration.CEP95_TABLE p 0
              (length Calibration.CEP95_TABLE - 1) in
   (i + 1 < length Calibration.CEP95_TABLE)%nat /\
   fst (table_at Calibration.CEP95_TABLE i) <= p
     < fst (table_at Calibration.CEP95_TABLE (i + 1))).
Proof.
  split.
  - destruct (UtilsProps.cep95_from_conf_cases p)
      as [[Hp ->]|[[Hp ->]|[[Hp ->]|[[Hp ->]|
         [[Hp ->]|[[Hp ->]|[[Hp ->]|[[Hp ->]|[Hp ->]]]]]]]]];
      unfold UtilsProps.interp; lra.
  - intros Hp. unfold Calibration.CEP95_TABLE.
    cbn [length Nat.sub cep95_scan table_at nth fst Nat.add].
    repeat case_decide; cbn [table_at nth fst Nat.add length];
      first [ split; [lia | lra] | exfalso; lra ].
Qed.

Lemma cep95_from_conf_bracket_witness :
  (cep95_scan Calibration.CEP95_TABLE 0.5 0 7 + 1 < 8)%nat.
Proof.
  apply (cep95_from_conf_bracket 0.5). lra.
Defined.

End UtilsMore.

(* ------------------------------------------------------------------ *)
(** ** kalman.cpp: windows, distance clamp, covariance *)

Module KalmanMore.
Import Kalman KalmanProps.

(** The last [m] elements of a list. *)
Definition lastn {A} (m : nat) (l : list A) : list A :=
  skipn (length l - m) l.

Lemma lastn_all {A} (m : nat) (l : list A) :
  (length l <= m)%nat -> lastn m l = l.
Proof. intros H. unfold lastn. by replace (length l - m)%nat with 0%nat by lia. Qed.

Lemma lastn_length {A} (m : nat) (l : list A) :
  length (lastn m l) = Nat.min m (length l).
Proof. unfold lastn. rewrite length_skipn. lia. Qed.

Lemma tail_skipn {A} (j : nat) (l : list A) : tail (skipn j l) = skipn (S j) l.
Proof.
  revert l. induction j as [|j IH]; intros [|x l]; try reflexivity.
  cbn [skipn]. rewrite IH. by destruct l.
Qed.

Lemma lastn_snoc {A} (m : nat) (l : list A) (x : A) :
  (0 < m)%nat -> lastn m (lastn m l ++ [x]) = lastn m (l ++ [x]).
Proof.
  intros Hm. unfold lastn at 1 3.
  rewrite !length_app, lastn_length. cbn [length].
  destruct (decide (length l < m)%nat) as [Hlt|Hge].
  - rewrite lastn_all by lia.
    by replace (Nat.min m (length l) + 1 - m)%nat
      with (length l + 1 - m)%nat by lia.
  - replace (Nat.min m (length l) + 1 - m)%nat with 1%nat by lia.
    unfold lastn.
    rewrite !skipn_app.
    replace (1 - length (skipn (length l - m) l))%nat with 0%nat
      by (rewrite length_skipn; lia).
    replace (length l + 1 - m - length l)%nat with 0%nat by lia.
    cbn [skipn]. f_equal.
    change (skipn 1 (skipn (length l - m) l))
      with (tail (skipn (length l - m) l)) at 1.
    { rewrite tail_skipn. f_equal. lia. }
Qed.

Lemma push_trim_lastn (buf : list R) (x : R) :
  (length buf <= max_buffer)%nat ->
  push_trim buf x = lastn max_buffer (buf ++ [x]).
Proof.
  intros Hlen. unfold push_trim, lastn.
  rewrite length_app. cbn [length]. unfold max_buffer in *.
  case_decide.
  - replace (length buf + 1 - 50)%nat with 1%nat by lia.
    by destruct buf.
  - by replace (length buf + 1 - 50)%nat with 0%nat by lia.
Qed.

(** X4.  The two windows are FIFO buffers capped at 50 entries.  Starting
    from any filter whose RSSI window respects the cap, after a sequence of
    steps the window holds the last 50 values of the old window followed by
    the measurements received, oldest first; in particular a fresh filter
    holds [min n 50] samples in each window after [n] steps. *)
Theorem windows_are_fifo (k : KalmanFilter) (calls : list (R * R * R * R)) :
  (length (rssi_vals k) <= max_buffer)%nat ->
  rssi_vals (run k calls) =
    lastn max_buffer
      (rssi_vals k ++ map (fun c : R * R * R * R => c.1.2) calls) /\
  length (rssi_vals (run init calls)) = Nat.min (length calls) 50 /\
  length (residuals (run init calls)) = Nat.min (length calls) 50.
Proof.
  intros Hlen. split; [|apply run_lengths].
  induction calls as [|c calls IH] using rev_ind.
  - cbn [map run fold_left]. rewrite app_nil_r. by rewrite lastn_all.
  - rewrite run_snoc, step_rssi_vals, IH, map_app, app_assoc. cbn [map].
    rewrite push_trim_lastn by (rewrite lastn_length; lia).
    apply lastn_snoc. unfold max_buffer. lia.
Qed.

Lemma windows_are_fifo_witness :
  rssi_vals (run init four_calls) =
  lastn max_buffer (rssi_vals init ++ map (fun c : R * R * R * R => c.1.2) four_calls).
Proof.
  apply (windows_are_fifo init four_calls). cbn. lia.
Defined.

(** X5.  The distance is clamped from below at [1e-6]: a step with a
    distance at or below the clamp (zero and negative distances included)
    is the step with distance [1e-6], for the filter and the returned
    state alike. *)
Theorem sequence_step_clamps_distance (k : KalmanFilter)
  (RSSI0_i n_i r_val d_val : R) :
  d_val <= 1e-6 ->
  sequence_step k RSSI0_i n_i r_val d_val =
  sequence_step k RSSI0_i n_i r_val 1e-6.
Proof.
  intros Hd. unfold sequence_step.
  rewrite (Rmax_right d_val 1e-6) by done.
  by rewrite (Rmax_right 1e-6 1e-6) by lra.
Qed.

Lemma sequence_step_clamps_distance_witness :
  sequence_step init (-59) 2 (-60) (-1) = sequence_step init (-59) 2 (-60) 1e-6.
Proof. apply sequence_step_clamps_distance. lra. Defined.

(** *** The covariance *)

(** The covariance is symmetric and positive semi-definite. *)
Definition P_psd (k : KalmanFilter) : Prop :=
  P01 k = P10 k /\ 0 <= P00 k /\ 0 <= P11 k /\ P01 k * P10 k <= P00 k * P11 k.

(** The process noise is diagonal and non-negative. *)
Definition Q_diag (k : KalmanFilter) : Prop :=
  Q01 k = 0 /\ Q10 k = 0 /\ 0 <= Q00 k /\ 0 <= Q11 k.

Lemma variance_nonneg (l : list R) : l <> [] -> 0 <= variance l.
Proof.
  intros Hne. unfold variance.
  pose proof (size_pos l Hne). pose proof (sum_sq_dev_nonneg (accumulate l / size l) l).
  unfold Rdiv. apply Rmult_le_pos; [done|]. left. by apply Rinv_0_lt_compat.
Qed.

Lemma step_Q_diag_nonneg (k : KalmanFilter) (RSSI0_i n_i r_val d_val : R) :
  Q_diag k -> Q_diag (fst (sequence_step k RSSI0_i n_i r_val d_val)).
Proof.
  intros (H01 & H10 & H00 & H11).
  pose proof (step_Q_diag k RSSI0_i n_i r_val d_val) as HQ.
  destruct (step_Q_offdiag k RSSI0_i n_i r_val d_val) as [E01 E10].
  unfold Q_diag. rewrite E01, E10.
  case_decide as Hge; apply pair_equal_spec in HQ as [-> ->]; [|done].
  assert (residuals k <> []) as Hne.
  { intros He. rewrite He in Hge. cbn in Hge. unfold min_required_points in Hge. lia. }
  pose proof (variance_nonneg _ Hne). unfold alpha.
  repeat split; [done | done | nra | nra].
Qed.

(** X6.  One step on a filter whose covariance is symmetric positive
    semi-definite and whose process noise is diagonal and non-negative: the
    innovation variance [S] is at least [sigma^2], so it is positive, and
    the two gains are well defined, whenever the adapted [sigma] is not
    zero; and then the updated covariance is again symmetric positive
    semi-definite and the process noise again diagonal and non-negative. *)
Theorem covariance_stays_psd (k : KalmanFilter) (RSSI0_i n_i r_val d_val : R) :
  let k' := fst (sequence_step k RSSI0_i n_i r_val d_val) in
  let S := innovation_variance k k' (X_of k d_val) in
  P_psd k -> Q_diag k ->
  sigma k' ^ 2 <= S /\
  (sigma k' <> 0 -> 0 < S /\ P_psd k' /\ Q_diag k').
Proof.
  intros k' S (Hsym & H00 & H11 & Hdet) HQ.
  pose proof (step_Q_diag_nonneg k RSSI0_i n_i r_val d_val HQ) as HQ'.
  fold k' in HQ'. destruct HQ as (Q01z & Q10z & _ & _).
  pose proof HQ' as (_ & _ & Q00' & Q11').
  pose proof (step_P k RSSI0_i n_i r_val d_val) as HP. cbn zeta in HP.
  fold k' in HP. unfold gains in HP. cbn [fst snd] in HP.
  subst S. unfold innovation_variance in *.
  rewrite Q01z, Q10z, <-Hsym in *.
  set (X := X_of k d_val) in *.
  set (p00 := P00 k + Q00 k') in *. set (p11 := P11 k + Q11 k') in *.
  set (c := P01 k) in *.
  assert (0 <= p00) as Hp00 by (subst p00; lra).
  assert (0 <= p11) as Hp11 by (subst p11; lra).
  assert (c * c <= p00 * p11) as Hpdet by (subst p00 p11; nra).
  assert (0 <= p00 + 2 * c * X + p11 * (X * X)) as Hquad.
  { destruct (Req_dec p00 0) as [Hz|Hnz].
    - assert (c = 0) by nra. subst c. nra.
    - assert (0 < p00) by lra.
      assert (0 <= p00 * (p00 + 2 * c * X + p11 * (X * X))).
      { pose proof (pow2_ge_0 (p00 + c * X)). pose proof (pow2_ge_0 X). nra. }
      nra. }
  split; [nra|].
  intros Hsig.
  assert (0 < sigma k' ^ 2) as Hs2.
  { pose proof (pow2_ge_0 (sigma k')).
    destruct (Req_dec (sigma k' ^ 2) 0) as [Hz|]; [|lra].
    exfalso. apply Hsig. nra. }
  set (s2 := sigma k' ^ 2) in *.
  set (S := 1 * (p00 * 1 + (c + 0) * X) + X * ((c + 0) * 1 + p11 * X) + s2) in *.
  assert (S = p00 + 2 * c * X + p11 * (X * X) + s2) as HS by (subst S; ring).
  assert (0 < S) as HSpos by lra.
  split; [done|]. split; [|exact HQ'].
  destruct HP as (E00 & E01 & E10 & E11).
  assert (0 < / S) as HiS by (by apply Rinv_0_lt_compat).
  assert (P00 k' = ((p00 * p11 - c * c) * (X * X) + p00 * s2) * / S) as F00.
  { rewrite E00. rewrite HS. field. lra. }
  assert (P11 k' = ((p00 * p11 - c * c) + p11 * s2) * / S) as F11.
  { rewrite E11. rewrite HS. field. lra. }
  assert (P01 k' = (c * s2 - (p00 * p11 - c * c) * X) * / S) as F01.
  { rewrite E01. rewrite HS. field. lra. }
  assert (P10 k' = (c * s2 - (p00 * p11 - c * c) * X) * / S) as F10.
  { rewrite E10. rewrite HS. field. lra. }
  unfold P_psd. rewrite F00, F11, F01, F10.
  set (dt := p00 * p11 - c * c) in *. assert (0 <= dt) by (subst dt; lra).
  split; [done|].
  split; [apply Rmult_le_pos; [pose proof (pow2_ge_0 X); nra | lra]|].
  split; [apply Rmult_le_pos; [nra | lra]|].
  assert (((dt * (X * X) + p00 * s2) * (dt + p11 * s2)
           - (c * s2 - dt * X) * (c * s2 - dt * X))
          = dt * s2 * S) as Hid.
  { rewrite HS. subst dt. ring. }
  assert (0 <= dt * s2 * S) by (apply Rmult_le_pos; [nra | lra]).
  assert (0 <= / S * / S) by nra.
  nra.
Qed.

Lemma init_P_psd : P_psd init.
Proof. unfold P_psd. cbn. lra. Qed.

Lemma init_Q_diag : Q_diag init.
Proof. unfold Q_diag. cbn. lra. Qed.

Lemma covariance_stays_psd_witness :
  P_psd (fst (sequence_step init (-59) 2 (-60) 1)).
Proof.
  apply (covariance_stays_psd init (-59) 2 (-60) 1 init_P_psd init_Q_diag).
  destruct (step_gate_closed init (-59) 2 (-60) 1) as (_ & _ & _ & _ & ->).
  - rewrite step_rssi_vals, push_trim_length. cbn [rssi_vals init length].
    unfold min_required_points, max_buffer. case_decide; lia.
  - rewrite step_residuals, push_trim_length. cbn [residuals init length].
    unfold min_required_points, max_buffer. case_decide; lia.
  - cbn. lra.
Defined.

(** X7.  The process noise of a filter that started fresh is diagonal with
    non-negative entries after any number of steps. *)
Theorem process_noise_stays_diagonal (calls : list (R * R * R * R)) :
  Q_diag (run init calls).
Proof.
  induction calls as [|c calls IH] using rev_ind; [apply init_Q_diag|].
  rewrite run_snoc. by apply step_Q_diag_nonneg.
Qed.

End KalmanMore.

(* ------------------------------------------------------------------ *)
(** ** models.cpp: the remaining methods of [Tag] *)

Module TagMethods.
Import Models.

(** [Tag::rssi_for_anchor]: [rssi_readings.at(anchor_mac)].  [None] stands
    for the [std::out_of_range] that [at] throws on a missing key. *)
Definition rssi_for_anchor (tag : Tag) (anchor_mac : string) : option R :=
  rssi_readings tag !! anchor_mac.

(** [Tag::anchors_included]: the keys of [rssi_readings], pushed in the
    order the map is iterated (unspecified in C++; here the order of
    [map_to_list]). *)
Definition anchors_included (tag : Tag) : list string :=
  map fst (map_to_list (rssi_readings tag)).

End TagMethods.

(* ------------------------------------------------------------------ *)
(** ** models.cpp: health score, classification, path-loss model, tag *)

Module ModelsMore.
Import Models TagMethods.

(** A stream of health updates, oldest first: each entry is the z-score
    and the timestamp of one call of [update_health]. *)
Definition health_stream (a : Anchor) (LAMBDA : R) (zs : list (R * R)) : Anchor :=
  fold_left (fun a e => update_health a e.1 e.2 LAMBDA) zs a.

Lemma health_stream_snoc a LAMBDA zs e :
  health_stream a LAMBDA (zs ++ [e]) =
  update_health (health_stream a LAMBDA zs) e.1 e.2 LAMBDA.
Proof. unfold health_stream. by rewrite fold_left_app. Qed.

Lemma health_stream_ewma (a : Anchor) (LAMBDA z : R) (zs : list (R * R)) :
  Forall (fun e => e.1 = z) zs ->
  ewma (health_stream a LAMBDA zs)
  = z ^ 2 + (1 - LAMBDA) ^ length zs * (ewma a - z ^ 2).
Proof.
  induction zs as [|e zs IH] using rev_ind; intros Hall.
  - cbn. lra.
  - apply Forall_app in Hall as [Hzs He]. apply Forall_cons in He as [He _].
    rewrite health_stream_snoc. cbn [update_health ewma].
    rewrite (IH Hzs), He, length_app. cbn [length].
    rewrite Nat.add_1_r. cbn [pow]. ring.
Qed.

(** X8.  Under a stream of health updates that all carry the same z-score
    the health score moves geometrically from its old value to [z^2]:
    after [n] updates it is [z^2 + (1 - LAMBDA)^n * (ewma - z^2)].  The
    other fields the stream leaves alone, except [last_seen], which is the
    timestamp of the last update. *)
Theorem ewma_closed_form (a : Anchor) (LAMBDA z : R) (zs : list (R * R)) :
  Forall (fun e => e.1 = z) zs ->
  let a' := health_stream a LAMBDA zs in
  ewma a' = z ^ 2 + (1 - LAMBDA) ^ length zs * (ewma a - z ^ 2) /\
  last_seen a' = List.last (map snd zs) (last_seen a) /\
  mac_address a' = mac_address a /\ coord a' = coord a /\
  RSSI_0 a' = RSSI_0 a /\ n a' = n a /\ kalman a' = kalman a.
Proof.
  induction zs as [|e zs IH] using rev_ind; intros Hall a'.
  - cbn. repeat split; lra.
  - subst a'. apply Forall_app in Hall as [Hzs He].
    apply Forall_cons in He as [He _].
    destruct (IH Hzs) as (E & L & M & C & R0 & N & K).
    rewrite health_stream_snoc. cbn [update_health ewma last_seen mac_address
      coord RSSI_0 n kalman].
    rewrite E, He, length_app, map_app. cbn [length map]. rewrite List.last_last.
    rewrite Nat.add_1_r. cbn [pow].
    repeat split; try done. ring.
Qed.

Lemma ewma_closed_form_witness :
  ewma (health_stream (new_Anchor "A" (0, 0, 0) 0) 0.05 [(0, 1); (0, 2)]) =
  0 ^ 2 + (1 - 0.05) ^ 2 * (1 - 0 ^ 2).
Proof.
  apply (ewma_closed_form (new_Anchor "A" (0, 0, 0) 0) 0.05 0 [(0, 1); (0, 2)]).
  by repeat constructor.
Defined.

(** The rate of convergence depends on the initial health score only
    through a bound on its magnitude. *)
Lemma ewma_converges (z B eps : R) :
  0 < eps ->
  exists N : nat, forall (a : Anchor) (zs : list (R * R)),
    Rabs (ewma a) <= B ->
    (N <= length zs)%nat -> Forall (fun e => e.1 = z) zs ->
    Rabs (ewma (health_stream a Calibration.LAMBDA_EWMA zs) - z ^ 2) < eps.
Proof.
  intros Heps.
  set (D := Rabs B + z ^ 2 + 1).
  assert (0 < D) as HD.
  { subst D. pose proof (Rabs_pos B). pose proof (pow2_ge_0 z). lra. }
  destruct (pow_lt_1_zero (1 - Calibration.LAMBDA_EWMA)) with (y := eps / D)
    as [N HN].
  { unfold Calibration.LAMBDA_EWMA. rewrite Rabs_pos_eq; lra. }
  { by apply Rdiv_lt_0_compat. }
  exists N. intros a zs HB Hlen Hall.
  rewrite (health_stream_ewma a Calibration.LAMBDA_EWMA z zs Hall).
  replace (z ^ 2 + (1 - Calibration.LAMBDA_EWMA) ^ length zs * (ewma a - z ^ 2)
           - z ^ 2)
    with ((1 - Calibration.LAMBDA_EWMA) ^ length zs * (ewma a - z ^ 2)) by ring.
  rewrite Rabs_mult.
  specialize (HN (length zs) Hlen).
  pose proof (Rabs_pos ((1 - Calibration.LAMBDA_EWMA) ^ length zs)) as Hp.
  assert (Rabs (ewma a - z ^ 2) <= D) as Hq.
  { subst D. pose proof (Rabs_triang (ewma a) (- z ^ 2)) as Ht.
    rewrite Rabs_Ropp, (Rabs_pos_eq (z ^ 2)) in Ht by apply pow2_ge_0.
    pose proof (Rle_abs B). unfold Rminus. lra. }
  assert (eps / D * D = eps) as HeD by (field; lra).
  assert (Rabs ((1 - Calibration.LAMBDA_EWMA) ^ length zs) * Rabs (ewma a - z ^ 2)
          <= Rabs ((1 - Calibration.LAMBDA_EWMA) ^ length zs) * D).
  { by apply Rmult_le_compat_l. }
  assert (Rabs ((1 - Calibration.LAMBDA_EWMA) ^ length zs) * D < eps / D * D).
  { apply Rmult_lt_compat_r; done. }
  lra.
Qed.

(** X9.  With the default smoothing factor, a long enough stream of
    updates with the same z-score settles the classification, and how long
    is enough depends only on the z-score and on a bound [B] on the
    magnitude of the health score at the start: there is one [N] that serves
    every anchor whose health score lies within [B].  If [z^2 > 8] the
    anchor ends up faulty, if [4 < z^2 < 8] it ends up in warning, and if
    [z^2 < 4] (a stream of zero residuals, say) it ends up neither.  No
    [N] serves all anchors at once: whatever [N], some anchor is still
    faulty after [N] updates with a zero z-score. *)
Theorem ewma_classification_settles (z B : R) :
  (exists N : nat, forall (a : Anchor) (zs : list (R * R)),
     Rabs (ewma a) <= B ->
     (N <= length zs)%nat -> Forall (fun e => e.1 = z) zs ->
     let a' := health_stream a Calibration.LAMBDA_EWMA zs in
     (8 < z ^ 2 -> is_faulty a' = true /\ is_warning a' = false) /\
     (4 < z ^ 2 < 8 -> is_warning a' = true /\ is_faulty a' = false) /\
     (z ^ 2 < 4 -> is_warning a' = false /\ is_faulty a' = false)) /\
  (forall N : nat, exists (a : Anchor) (zs : list (R * R)),
     length zs = N /\ Forall (fun e => e.1 = 0) zs /\
     is_faulty (health_stream a Calibration.LAMBDA_EWMA zs) = true).
Proof.
  split; cycle 1.
  { intros N.
    assert ((1 - Calibration.LAMBDA_EWMA) ^ N <> 0) as Hne.
    { apply pow_nonzero. unfold Calibration.LAMBDA_EWMA. lra. }
    exists {| mac_address := "A"; coord := (0, 0, 0);
              ewma := 8 / (1 - Calibration.LAMBDA_EWMA) ^ N; last_seen := 0;
              RSSI_0 := -59; n := 2; kalman := Kalman.init |},
           (replicate N (0, 0)).
    assert (Forall (fun e : R * R => e.1 = 0) (replicate N (0, 0))) as Hall
      by (by apply Forall_replicate).
    split; [apply length_replicate|]. split; [exact Hall|].
    unfold is_faulty. apply bool_decide_eq_true.
    rewrite (health_stream_ewma _ Calibration.LAMBDA_EWMA 0 _ Hall).
    rewrite length_replicate. cbn [ewma].
    set (q := (1 - Calibration.LAMBDA_EWMA) ^ N) in *. clearbody q.
    replace (0 ^ 2 + q * (8 / q - 0 ^ 2)) with 8 by (field; exact Hne).
    lra. }
  set (eps := Rmin (Rmin (Rabs (z ^ 2 - 8)) (Rabs (z ^ 2 - 4))) 1).
  destruct (Req_dec (z ^ 2) 8) as [H8|H8].
  { exists 0%nat. intros a zs _ _ _ a'. repeat split; intros; lra. }
  destruct (Req_dec (z ^ 2) 4) as [H4|H4].
  { exists 0%nat. intros a zs _ _ _ a'. repeat split; intros; lra. }
  assert (0 < eps) as Heps.
  { subst eps. repeat apply Rmin_glb_lt; try lra; apply Rabs_pos_lt; lra. }
  destruct (ewma_converges z B eps Heps) as [N HN].
  exists N. intros a zs HB Hlen Hall a'.
  specialize (HN a zs HB Hlen Hall). fold a' in HN.
  assert (eps <= Rabs (z ^ 2 - 8)) as E8.
  { subst eps. etrans; [apply Rmin_l|apply Rmin_l]. }
  assert (eps <= Rabs (z ^ 2 - 4)) as E4.
  { subst eps. etrans; [apply Rmin_l|apply Rmin_r]. }
  unfold is_faulty, is_warning.
  apply Rabs_def2 in HN as [HN1 HN2].
  split; [intros Hz; split | split; intros Hz; split].
  - apply bool_decide_eq_true. rewrite Rabs_pos_eq in E8 by lra. lra.
  - apply andb_false_iff. right. apply bool_decide_eq_false.
    rewrite Rabs_pos_eq in E8 by lra. lra.
  - apply andb_true_iff. split; apply bool_decide_eq_true.
    + rewrite Rabs_pos_eq in E4 by lra. lra.
    + rewrite Rabs_left in E8 by lra. lra.
  - apply bool_decide_eq_false. rewrite Rabs_left in E8 by lra. lra.
  - apply andb_false_iff. left. apply bool_decide_eq_false.
    rewrite Rabs_left in E4 by lra. lra.
  - apply bool_decide_eq_false. rewrite Rabs_left in E4 by lra. lra.
Qed.

(** A stream of zero z-scores: one [N] clears every anchor whose health
    score is at most 100 in magnitude, a fresh anchor among them. *)
Lemma ewma_classification_settles_witness :
  exists N : nat, forall zs : list (R * R),
    (N <= length zs)%nat -> Forall (fun e => e.1 = 0) zs ->
    is_warning (health_stream (new_Anchor "A" (0, 0, 0) 0)
                  Calibration.LAMBDA_EWMA zs) = false /\
    is_faulty (health_stream (new_Anchor "A" (0, 0, 0) 0)
                 Calibration.LAMBDA_EWMA zs) = false.
Proof.
  destruct (ewma_classification_settles 0 100) as [[N HN] _].
  exists N. intros zs Hlen Hall.
  apply (HN (new_Anchor "A" (0, 0, 0) 0) zs); [|done|done|lra].
  cbn [new_Anchor ewma]. rewrite Rabs_pos_eq; lra.
Defined.

(** X10.  The two classifiers never hold together; faulty is [ewma >= 8],
    warning is [4 <= ewma < 8]; and a health update moves the score to a
    value between the old score and [z^2], so an anchor whose score and
    squared residual are both below a threshold stays below it. *)
Theorem classification_thresholds (a : Anchor) (z now LAMBDA : R) :
  (is_faulty a = true <-> 8 <= ewma a) /\
  (is_warning a = true <-> 4 <= ewma a < 8) /\
  (is_warning a && is_faulty a = false) /\
  (0 <= LAMBDA <= 1 ->
   Rmin (ewma a) (z ^ 2) <= ewma (update_health a z now LAMBDA)
     <= Rmax (ewma a) (z ^ 2)).
Proof.
  unfold is_faulty, is_warning.
  split; [|split; [|split]].
  - rewrite bool_decide_eq_true. split; lra.
  - rewrite andb_true_iff, !bool_decide_eq_true. split; intros [? ?]; split; lra.
  - destruct (bool_decide (ewma a >= 8)) eqn:H8; [|by rewrite andb_false_r].
    apply bool_decide_eq_true in H8.
    rewrite andb_true_r. apply andb_false_iff. right.
    apply bool_decide_eq_false. lra.
  - intros HL. cbn [update_health ewma].
    unfold Rmin, Rmax. repeat destruct Rle_dec; split; nra.
Qed.

Lemma classification_thresholds_witness :
  Rmin 1 (3 ^ 2) <= ewma (update_health (new_Anchor "A" (0, 0, 0) 0) 3 7 0.05)
    <= Rmax 1 (3 ^ 2).
Proof.
  apply (classification_thresholds (new_Anchor "A" (0, 0, 0) 0) 3 7 0.05). lra.
Defined.

(** *** The path-loss model *)

Lemma log10_increasing (x y : R) :
  0 < x -> x < y -> Utils.log10 x < Utils.log10 y.
Proof.
  intros Hx Hxy. unfold Utils.log10.
  assert (0 < ln 10) by (rewrite <-ln_1; apply ln_increasing; lra).
  apply Rmult_lt_compat_r; [by apply Rinv_0_lt_compat|].
  by apply ln_increasing.
Qed.

(** X11.  The path-loss mean and the z-score.  At the reference distance
    the mean is [RSSI_0]; a distance at or below the clamp [1e-6] is read as
    [1e-6]; for a positive exponent the mean strictly decreases as the
    distance grows beyond the clamp; and a reading that exceeds the mean by
    [delta] has z-score [delta / sigma], so readings symmetric about the
    mean have opposite z-scores and a reading equal to the mean has
    z-score zero. *)
Theorem path_loss_shape (m : PathLossModel) (RSSI_0 n d d1 d2 delta : R) :
  1e-6 <= d_0 m ->
  mu m RSSI_0 n (d_0 m) = RSSI_0 /\
  (d <= 1e-6 -> mu m RSSI_0 n d = mu m RSSI_0 n 1e-6) /\
  (0 < n -> 1e-6 <= d1 < d2 -> mu m RSSI_0 n d2 < mu m RSSI_0 n d1) /\
  (sigma m <> 0 ->
   z m (mu m RSSI_0 n d + delta) RSSI_0 n d = delta / sigma m /\
   z m (mu m RSSI_0 n d - delta) RSSI_0 n d
     = - z m (mu m RSSI_0 n d + delta) RSSI_0 n d /\
   z m (mu m RSSI_0 n d) RSSI_0 n d = 0).
Proof.
  intros Hd0. assert (0 < d_0 m) as Hpos by lra.
  split; [|split; [|split]].
  - unfold mu. rewrite Rmax_left by done.
    replace (d_0 m / d_0 m) with 1 by (field; lra).
    rewrite KalmanProps.log10_1. ring.
  - intros Hd. unfold mu. rewrite (Rmax_right d) by done.
    by rewrite (Rmax_right 1e-6 1e-6) by lra.
  - intros Hn [H1 H12]. unfold mu.
    rewrite (Rmax_left d1) by done. rewrite (Rmax_left d2) by lra.
    assert (Utils.log10 (d1 / d_0 m) < Utils.log10 (d2 / d_0 m)).
    { apply log10_increasing.
      - apply Rdiv_lt_0_compat; lra.
      - apply Rmult_lt_compat_r; [by apply Rinv_0_lt_compat | done]. }
    nra.
  - intros Hs. unfold z. repeat split; field; done.
Qed.

Lemma path_loss_shape_witness : mu new_PathLossModel (-59) 2 1 = -59.
Proof.
  apply (path_loss_shape new_PathLossModel (-59) 2 0 1 2 0).
  unfold new_PathLossModel. cbn [d_0]. lra.
Defined.

(** *** The tag *)

(** X12.  [anchors_included] lists, without repetition, exactly the MAC
    addresses for which [rssi_for_anchor] returns a reading (does not
    throw), as many as the tag has readings; for a tag with no reading the
    list is empty and every [rssi_for_anchor] throws. *)
Theorem anchors_included_spec (tag : Tag) :
  NoDup (anchors_included tag) /\
  (forall mac, In mac (anchors_included tag) <-> is_Some (rssi_for_anchor tag mac)) /\
  length (anchors_included tag) = size (rssi_readings tag) /\
  (rssi_readings tag = ∅ ->
   anchors_included tag = [] /\ forall mac, rssi_for_anchor tag mac = None).
Proof.
  unfold anchors_included, rssi_for_anchor.
  split; [apply NoDup_fst_map_to_list|].
  split; [|split].
  - intros mac. rewrite <-list_elem_of_In. split.
    + intros [[k v] [Hk Hin]]%list_elem_of_fmap. cbn in Hk. subst k.
      apply elem_of_map_to_list in Hin. by exists v.
    + intros [v Hv]. apply list_elem_of_fmap. exists (mac, v). split; [done|].
      by apply elem_of_map_to_list.
  - by rewrite length_map, length_map_to_list.
  - intros ->. rewrite map_to_list_empty. split; [done|].
    intros mac. apply lookup_empty.
Qed.

Lemma anchors_included_spec_witness :
  anchors_included {| tag_mac_address := "T"; est_coord := (0, 0, 0);
                      rssi_readings := ∅ |} = [].
Proof.
  by apply (anchors_included_spec
              {| tag_mac_address := "T"; est_coord := (0, 0, 0);
                 rssi_readings := ∅ |}).
Defined.

(** *** A parameter update that divides by zero *)

(** A fresh anchor after [m] parameter updates that all carry -59 dBm at one
    metre, the reading its default parameters predict there. *)
Definition steady_anchor (m : nat) : Anchor :=
  Nat.iter m (fun a => update_parameters a (-59) 1) ModelsProps.fresh_anchor.

Lemma steady_anchor_state (m : nat) :
  RSSI_0 (steady_anchor m) = -59 /\ n (steady_anchor m) = 2 /\
  kalman (steady_anchor m) = Kalman.run Kalman.init (KalmanProps.steady_calls m).
Proof.
  induction m as [|m (IH0 & IH1 & IHk)].
  { unfold steady_anchor. split; [|split]; reflexivity. }
  change (steady_anchor (S m)) with (update_parameters (steady_anchor m) (-59) 1).
  pose proof (ModelsProps.update_parameters_state (steady_anchor m) (-59) 1) as H.
  cbn zeta in H. rewrite IH0, IH1, IHk in H.
  rewrite KalmanProps.step_state_zero_residual in H
    by apply KalmanProps.steady_resid, KalmanProps.run_d_0.
  apply pair_equal_spec in H as [H0 H1].
  split; [done|]. split; [done|].
  rewrite KalmanProps.steady_calls_S, KalmanProps.run_snoc. cbn [fst snd].
  cbn [update_parameters kalman]. by rewrite IH0, IH1, IHk.
Qed.

(** X24.  The innovation variance [S] by which the filter step divides can
    be exactly zero.  A fresh anchor that keeps hearing -59 dBm at one metre
    has a positive [S] at each of its first five parameter updates, which
    leave [RSSI_0 = -59] and [n = 2]; the fifth sets [sigma] and [P00] to
    zero, and at the sixth update [S] is zero: the two gains of that call are
    quotients by zero. *)
Theorem innovation_variance_vanishes :
  let S_of (m : nat) :=
    KalmanProps.innovation_variance
      (kalman (steady_anchor m)) (kalman (steady_anchor (S m)))
      (KalmanProps.X_of (kalman (steady_anchor m)) 1) in
  (forall m, (m < 5)%nat -> 0 < S_of m) /\
  (forall m, (m <= 5)%nat ->
     RSSI_0 (steady_anchor m) = -59 /\ n (steady_anchor m) = 2) /\
  Kalman.sigma (kalman (steady_anchor 5)) = 0 /\
  Kalman.P00 (kalman (steady_anchor 5)) = 0 /\
  S_of 5%nat = 0.
Proof.
  intros S_of.
  assert (forall m, S_of m =
            KalmanProps.innovation_variance
              (Kalman.run Kalman.init (KalmanProps.steady_calls m))
              (Kalman.run Kalman.init (KalmanProps.steady_calls (S m)))
              (KalmanProps.X_of
                 (Kalman.run Kalman.init (KalmanProps.steady_calls m)) 1)) as HS.
  { intros m. subst S_of. cbn beta.
    destruct (steady_anchor_state m) as (_ & _ & ->).
    by destruct (steady_anchor_state (S m)) as (_ & _ & ->). }
  split; [|split; [|split; [|split]]].
  - intros m Hm. rewrite HS.
    by apply (KalmanProps.steady_innovation_variance m).
  - intros m _. destruct (steady_anchor_state m) as (H0 & H1 & _). by split.
  - destruct (steady_anchor_state 5) as (_ & _ & ->).
    apply KalmanProps.steady_fifth_step.
  - destruct (steady_anchor_state 5) as (_ & _ & ->).
    apply KalmanProps.steady_fifth_step.
  - rewrite HS. by apply (KalmanProps.steady_innovation_variance 5).
Qed.

Lemma innovation_variance_vanishes_witness :
  0 < KalmanProps.innovation_variance
        (kalman (steady_anchor 0)) (kalman (steady_anchor 1))
        (KalmanProps.X_of (kalman (steady_anchor 0)) 1) /\
  RSSI_0 (steady_anchor 5) = -59 /\ n (steady_anchor 5) = 2.
Proof.
  destruct innovation_variance_vanishes as (Hpos & Hstate & _).
  split; [apply (Hpos 0%nat); lia | apply (Hstate 5%nat); lia].
Defined.

End ModelsMore.

(* ------------------------------------------------------------------ *)
(** ** metrics.cpp: selection, evaluator maps, score, gates *)

Module MetricsMore.
Import Models Metrics MetricsProps.

(** X13.  If a candidate with a health score below 8 reports the strongest
    RSSI of the fix, the selection is not empty and its first anchor
    reports the strongest RSSI. *)
Theorem strongest_candidate_first (h : Heap) (tag : Tag) (l : list ptr)
  (p : ptr) (r : R) :
  readings_in_range (rssi_readings tag) ->
  In p l ->
  rssi_readings tag !! mac_address (h p) = Some r ->
  strongest (rssi_readings tag) r ->
  ewma (h p) < 8 ->
  exists q rest,
    significant_anchors h tag l = q :: rest /\
    rssi_readings tag !! mac_address (h q) = Some r.
Proof.
  intros Hrange Hin Hr Hstr Hew.
  set (rssi_dict := rssi_readings tag) in *.
  assert (rssi_dict <> ∅) as Hne.
  { intros He. by rewrite He, lookup_empty in Hr. }
  assert (max_rssi_of rssi_dict = r) as Hmax.
  { eapply strongest_unique; [by apply max_rssi_of_strongest | done]. }
  rewrite get_significant_anchors_unfold by done. fold rssi_dict. rewrite Hmax.
  set (keep := List.filter (keeps h rssi_dict r) l).
  assert (In p keep) as Hpk.
  { apply List.filter_In. split; [done|]. rewrite keeps_significant.
    apply bool_decide_eq_true. exists r. repeat split; [done | lra | done]. }
  pose proof (std_sort_perm (rssi_gt h rssi_dict) keep) as Hperm.
  pose proof (std_sort_sorted (rssi_of h rssi_dict) keep) as Hsorted.
  change (fun a b : ptr => bool_decide (rssi_of h rssi_dict a > rssi_of h rssi_dict b))
    with (rssi_gt h rssi_dict) in Hsorted.
  assert (In p (std_sort (rssi_gt h rssi_dict) keep)) as Hps.
  { by apply (Permutation_in _ (Permutation_sym Hperm)). }
  destruct (std_sort (rssi_gt h rssi_dict) keep) as [|q rest] eqn:Hs; [done|].
  exists q, (firstn 4 rest). split; [reflexivity|].
  assert (In q keep) as Hqk.
  { apply (Permutation_in _ Hperm). by left. }
  apply List.filter_In in Hqk as [_ Hq]. rewrite keeps_significant in Hq.
  apply bool_decide_eq_true in Hq as (rq & Hrq & _ & _).
  rewrite Hrq. f_equal.
  destruct Hstr as [_ Hub]. pose proof (Hub _ _ Hrq) as Hle.
  assert (rssi_of h rssi_dict q >= rssi_of h rssi_dict p) as Hge.
  { destruct Hps as [->|Hrest]; [lra|].
    apply StronglySorted_inv in Hsorted as [_ Hall].
    by apply (proj1 (List.Forall_forall _ _) Hall). }
  unfold rssi_of, rssi_at in Hge. rewrite Hrq, Hr in Hge. cbn in Hge. lra.
Qed.

Lemma strongest_candidate_first_witness :
  exists q rest,
    significant_anchors (one_anchor_heap 0) one_reading_tag [0%nat] = q :: rest /\
    rssi_readings one_reading_tag !! mac_address (one_anchor_heap 0 q) = Some (-50).
Proof.
  apply (strongest_candidate_first (one_anchor_heap 0) one_reading_tag [0%nat]
           0%nat (-50)).
  - apply one_reading_in_range.
  - by left.
  - apply lookup_singleton_eq.
  - rewrite <-one_reading_max. apply max_rssi_of_strongest.
    + apply one_reading_nonempty.
    + apply one_reading_in_range.
  - cbn [one_anchor_heap new_Anchor ewma]. lra.
Defined.

(** *** The maps of the evaluator *)

Definition distinct_keys (h : Heap) (m : AnchorMap) : Prop :=
  NoDup (map (fun e : ptr * R => mac_of h e.1) m).

Lemma amap_set_macs h m k v :
  map (fun e : ptr * R => mac_of h e.1) (amap_set h m k v) =
  if decide (mac_of h k ∈ map (fun e : ptr * R => mac_of h e.1) m)
  then map (fun e : ptr * R => mac_of h e.1) m
  else map (fun e : ptr * R => mac_of h e.1) m ++ [mac_of h k].
Proof.
  induction m as [|[k' v'] m IH]; cbn [amap_set map fst app].
  - rewrite decide_False; [done|]. apply not_elem_of_nil.
  - unfold same_key. case_bool_decide as Hk.
    + rewrite decide_True; [done|]. apply elem_of_cons. left.
      unfold mac_of. by rewrite Hk.
    + cbn [map fst]. rewrite IH. fold (mac_of h k') (mac_of h k) in Hk.
      destruct (decide (mac_of h k ∈ map (fun e : ptr * R => mac_of h e.1) m))
        as [Hin|Hnin].
      * rewrite decide_True; [done|]. apply elem_of_cons. by right.
      * rewrite decide_False; [done|].
        intros [Heq|Hin]%elem_of_cons; [by apply Hk | done].
Qed.

Lemma amap_set_distinct h m k v :
  distinct_keys h m -> distinct_keys h (amap_set h m k v).
Proof.
  unfold distinct_keys. intros Hnd. rewrite amap_set_macs.
  case_decide as Hin; [done|].
  apply NoDup_app. split; [done|]. split; [|apply NoDup_singleton].
  intros x Hx [->|[]%elem_of_nil]%elem_of_cons. by apply Hin.
Qed.

Lemma amap_set_length h m k v :
  (length (amap_set h m k v) <= S (length m))%nat.
Proof.
  induction m as [|[k' v'] m IH]; cbn [amap_set length]; [lia|].
  destruct (same_key h k' k); cbn [length]; lia.
Qed.

Lemma amap_set_values (P : R -> Prop) h m k v :
  P v -> Forall (fun e : ptr * R => P e.2) m ->
  Forall (fun e : ptr * R => P e.2) (amap_set h m k v).
Proof.
  intros Hv. induction 1 as [|[k' v'] m Hk' Hm IH]; cbn [amap_set].
  - by repeat constructor.
  - destruct (same_key h k' k); constructor; done.
Qed.

Lemma distances_invariant h tag l :
  distinct_keys h (distances h tag l) /\
  (length (distances h tag l) <= length (significant_anchors h tag l))%nat /\
  Forall (fun e : ptr * R => 0 <= e.2) (distances h tag l).
Proof.
  unfold distances.
  set (sig := significant_anchors h tag l).
  assert (forall acc,
    distinct_keys h acc -> Forall (fun e : ptr * R => 0 <= e.2) acc ->
    let out := fold_left (fun result anchor =>
                 amap_set h result anchor
                   (Utils.R3_distance (coord (h anchor)) (est_coord tag))) sig acc in
    distinct_keys h out /\ (length out <= length acc + length sig)%nat /\
    Forall (fun e : ptr * R => 0 <= e.2) out) as Hgen.
  { induction sig as [|a sig IH]; intros acc Hd Hv; cbn [fold_left length].
    - split; [done|]. split; [lia | done].
    - destruct (IH (amap_set h acc a
                      (Utils.R3_distance (coord (h a)) (est_coord tag))))
        as (H1 & H2 & H3).
      + by apply amap_set_distinct.
      + apply amap_set_values; [|done].
        destruct (coord (h a)) as [[? ?] ?], (est_coord tag) as [[? ?] ?].
        apply sqrt_pos.
      + split; [done|]. split; [|done].
        pose proof (amap_set_length h acc a
                      (Utils.R3_distance (coord (h a)) (est_coord tag))).
        cbn zeta in H2. lia. }
  destruct (Hgen []) as (H1 & H2 & H3); [constructor | constructor |].
  cbn zeta in *. cbn [length] in H2. by repeat split.
Qed.

(** X14.  The distance map and the z-score map of a fix hold the same
    keys, as many in the one as in the other and in whatever order each map
    is traversed; the keys are pairwise distinct by MAC address; the maps
    hold at most 5 entries; every key is a significant anchor and every
    significant anchor has an entry; and every distance is non-negative. *)
Theorem evaluator_maps (h : Heap) (tag : Tag) (model : PathLossModel)
  (l : list ptr) :
  Permutation (map fst (z_vals h tag model l)) (map fst (distances h tag l)) /\
  length (z_vals h tag model l) = length (distances h tag l) /\
  NoDup (map (fun e : ptr * R => mac_address (h e.1)) (distances h tag l)) /\
  (length (distances h tag l) <= 5)%nat /\
  (forall p, In p (map fst (distances h tag l)) ->
             In p (significant_anchors h tag l)) /\
  (forall p, In p (significant_anchors h tag l) ->
             exists e, In e (distances h tag l) /\
                       mac_address (h e.1) = mac_address (h p)) /\
  Forall (fun e : ptr * R => 0 <= e.2) (distances h tag l).
Proof.
  destruct (distances_invariant h tag l) as (Hd & Hlen & Hpos).
  assert (map fst (z_vals h tag model l) = map fst (distances h tag l)) as Hkeys.
  { unfold z_vals.
    rewrite (fold_amap_set_fresh h fst
               (fun pair : ptr * R =>
                  z model (rssi_at (rssi_readings tag) (mac_address (h pair.1)))
                    (RSSI_0 (h pair.1)) (n (h pair.1)) pair.2) _ []).
    + cbn [app]. rewrite map_map. cbn [fst]. done.
    + cbn [map app]. exact Hd. }
  split; [by rewrite Hkeys|].
  split; [by rewrite <-(length_map fst), Hkeys, length_map|].
  split; [done|split; [|split; [|split; [|done]]]].
  - etrans; [exact Hlen|].
    destruct (decide (rssi_readings tag = ∅)) as [He|Hne].
    + rewrite get_significant_anchors_empty by done. cbn. lia.
    + rewrite get_significant_anchors_unfold by done.
      rewrite length_firstn. unfold Calibration.MAX_SIGNIFICANT_ANCHORS. lia.
  - apply distances_keys.
  - apply distances_has_key.
Qed.

(** *** The score *)








(** *** The admission test *)

(** X17.  For a significant anchor the RSSI part of the admission test is
    redundant as soon as [deltaR >= 10]: the anchor is admitted exactly when
    the time since it was last seen (taken as 0 for an anchor whose
    [last_seen] is 0) does not exceed [T_vis].  In particular a significant
    anchor with [last_seen = 0] is admitted whenever [T_vis >= 0]. *)
Theorem admission_of_significant (h : Heap) (tag : Tag) (l : list ptr)
  (now deltaR : R) (T_vis : Z) (p : ptr) :
  In p (significant_anchors h tag l) ->
  10 <= deltaR ->
  let tau := if decide (last_seen (h p) <> 0) then now - last_seen (h p) else 0 in
  (admitted h (rssi_readings tag) (max_rssi_of (rssi_readings tag))
            now deltaR T_vis p = true <-> tau <= IZR T_vis) /\
  (last_seen (h p) = 0 -> (0 <= T_vis)%Z ->
   admitted h (rssi_readings tag) (max_rssi_of (rssi_readings tag))
            now deltaR T_vis p = true).
Proof.
  intros Hin HdR tau.
  apply significant_in_filter in Hin as [_ Hk].
  rewrite keeps_significant in Hk. apply bool_decide_eq_true in Hk as (r & Hr & Hd & _).
  assert (admitted h (rssi_readings tag) (max_rssi_of (rssi_readings tag))
            now deltaR T_vis p = true <-> tau <= IZR T_vis) as Hiff.
  { unfold admitted, rssi_at. rewrite Hr. cbn [default]. fold tau.
    rewrite (bool_decide_eq_false_2 (max_rssi_of (rssi_readings tag) - r > deltaR))
      by lra.
    rewrite orb_false_r, negb_true_iff, bool_decide_eq_false. split; lra. }
  split; [done|].
  intros Hseen HT. apply Hiff. subst tau.
  rewrite decide_False by (intros H; by apply H).
  by apply IZR_le.
Qed.

Lemma admission_of_significant_witness :
  admitted (one_anchor_heap 0) (rssi_readings one_reading_tag)
    (max_rssi_of (rssi_readings one_reading_tag)) 1000 10 0 0%nat = true.
Proof.
  apply (admission_of_significant (one_anchor_heap 0) one_reading_tag [0%nat]
           1000 10 0 0%nat).
  - rewrite one_anchor_significant. by left.
  - lra.
  - reflexivity.
  - lia.
Defined.

(** *** Independence of the iteration order *)

Definition weight_sum (h : Heap) (z_dict : AnchorMap) : R :=
  foldr (fun e s => anchor_weight h e.1 e.2 + s) 0 z_dict.

Definition weighted_sum (lgamma : R -> R) (h : Heap) (v : Z) (z_dict : AnchorMap) : R :=
  foldr (fun e s => anchor_weight h e.1 e.2 * Utils.logpdf_student_t lgamma e.2 v + s)
        0 z_dict.

Lemma score_sums_from lgamma h v z_dict (acc : R * R) :
  fold_left
    (fun (acc : R * R) (e : ptr * R) =>
       let w := anchor_weight h e.1 e.2 in
       (acc.1 + w * Utils.logpdf_student_t lgamma e.2 v, acc.2 + w))
    z_dict acc
  = (acc.1 + weighted_sum lgamma h v z_dict, acc.2 + weight_sum h z_dict).
Proof.
  revert acc. induction z_dict as [|e z_dict IH]; intros [a b]; cbn [fold_left].
  - cbn. f_equal; ring.
  - rewrite IH. cbn [fst snd weighted_sum weight_sum foldr].
    fold (weighted_sum lgamma h v z_dict). fold (weight_sum h z_dict).
    f_equal; ring.
Qed.

Lemma sums_permutation lgamma h v z1 z2 :
  Permutation z1 z2 ->
  weighted_sum lgamma h v z1 = weighted_sum lgamma h v z2 /\
  weight_sum h z1 = weight_sum h z2.
Proof.
  unfold weighted_sum, weight_sum.
  induction 1 as [|e z1 z2 _ [IH1 IH2]|e e' z|z1 z2 z3 _ [IH1 IH2] _ [IH3 IH4]];
    cbn [foldr].
  - done.
  - by rewrite IH1, IH2.
  - split; ring.
  - split; congruence.
Qed.

(** X18.  The order in which the z-score map is iterated does not matter:
    for two arrangements of the same entries the two sums of the confidence
    score are equal, and, when no anchor occurs twice among the keys, the
    health loop leaves every anchor in the same state. *)
Theorem iteration_order_irrelevant (lgamma : R -> R) (h : Heap) (v : Z)
  (rssi_dict : gmap string R) (max_rssi now deltaR : R) (T_vis : Z)
  (z1 z2 : AnchorMap) :
  Permutation z1 z2 ->
  score_sums lgamma h v z1 = score_sums lgamma h v z2 /\
  (NoDup (map fst z1) ->
   forall p, update_health_loop rssi_dict max_rssi now deltaR T_vis h z1 p =
             update_health_loop rssi_dict max_rssi now deltaR T_vis h z2 p).
Proof.
  intros Hperm. split.
  - unfold score_sums. rewrite !score_sums_from.
    by destruct (sums_permutation lgamma h v z1 z2 Hperm) as [-> ->].
  - intros Hnd p.
    assert (NoDup (map fst z2)) as Hnd2.
    { by rewrite <-Hperm. }
    destruct (decide (p ∈ map fst z1)) as [Hin|Hnin].
    + apply list_elem_of_In, in_map_iff in Hin as ([q zp] & Hq & Hin).
      cbn in Hq. subst q.
      rewrite (update_health_loop_at _ _ _ _ _ h z1 p zp) by done.
      rewrite (update_health_loop_at _ _ _ _ _ h z2 p zp);
        [done | done | by apply (Permutation_in _ Hperm)].
    + rewrite !update_health_loop_frame; [done | |].
      * intros Hin. apply Hnin, list_elem_of_In.
        eapply Permutation_in; [|exact Hin].
        apply Permutation_map. by symmetry.
      * intros Hin. by apply Hnin, list_elem_of_In.
Qed.

Lemma iteration_order_irrelevant_witness :
  score_sums (fun _ => 0) (one_anchor_heap 0) 5 [(0%nat, 1); (1%nat, 2)] =
  score_sums (fun _ => 0) (one_anchor_heap 0) 5 [(1%nat, 2); (0%nat, 1)].
Proof.
  apply (iteration_order_irrelevant (fun _ => 0) (one_anchor_heap 0) 5 ∅ 0 0 0 0).
  apply perm_swap.
Defined.

End MetricsMore.

(* ------------------------------------------------------------------ *)
(** ** main.cpp: the output record and the processing of one message *)

Module Main.
Import Models Metrics.

(** [Config::DEFAULT_DELTA_R], [Config::DEFAULT_T_VIS] of [config.h]. *)
Definition DEFAULT_DELTA_R : R := 12.
Definition DEFAULT_T_VIS : Z := 6000.

(** The JSON object built by [create_anchors_info]: its three keys are
    the fields of the record; an entry of [anchors_selected_for_estimation]
    is the triple (mac, n_var, ewma). *)
Record AnchorsInfo : Type := mkAnchorsInfo {
  anchors_selected_for_estimation : list (string * R * R);
  warning_anchors : list string;
  faulty_anchors : list string
}.

Definition create_anchors_info (h : Heap) (anch_list : list ptr) : AnchorsInfo :=
  fold_left
    (fun acc anchor =>
       let anch_info_dict :=
         (mac_address (h anchor), n (h anchor), ewma (h anchor)) in
       {| anchors_selected_for_estimation :=
            anchors_selected_for_estimation acc ++ [anch_info_dict];
          warning_anchors :=
            if is_warning (h anchor)
            then warning_anchors acc ++ [mac_address (h anchor)]
            else warning_anchors acc;
          faulty_anchors :=
            if is_faulty (h anchor)
            then faulty_anchors acc ++ [mac_address (h anchor)]
            else faulty_anchors acc |})
    anch_list
    {| anchors_selected_for_estimation := [];
       warning_anchors := []; faulty_anchors := [] |}.

(** The object returned by [create_output_info]: the two keys of
    [create_tag_info] merged with the three of [create_anchors_info]. *)
Record OutputInfo : Type := mkOutputInfo {
  tag_mac : string;
  error_estimate : R;
  anchors_info : AnchorsInfo
}.

Definition create_output_info (tag_mac : string) (error_estimate : R)
  (h : Heap) (anch_list : list ptr) : OutputInfo :=
  {| tag_mac := tag_mac; error_estimate := error_estimate;
     anchors_info := create_anchors_info h anch_list |}.

Section Lgamma.
Variable lgamma : R -> R.

(** The part of [on_message] that follows the construction of the tag and
    of [anch_list]: the estimate is computed first, then the anchors are
    updated, then the output is built from the updated anchors.  With no
    candidate nothing is computed, updated or published ([None]).  Parsing,
    anchor discovery over HTTP and the publication itself are not modelled. *)
Definition process_message (model : PathLossModel) (h : Heap)
  (anch_list : list ptr) (message_tag : Tag) (timestamp : R)
  : Heap * option OutputInfo :=
  match anch_list with
  | [] => (h, None)
  | _ =>
      let error_estimate := error_radius lgamma h message_tag model anch_list in
      let h' := update_anchors_from_tag_data h anch_list message_tag model
                  timestamp DEFAULT_DELTA_R DEFAULT_T_VIS in
      (h', Some (create_output_info (tag_mac_address message_tag)
                   error_estimate h' anch_list))
  end.

(** The heap after a sequence of messages, oldest first; a message is its
    candidate list, its tag and its timestamp. *)
Definition process_messages (model : PathLossModel) (h : Heap)
  (msgs : list (list ptr * Tag * R)) : Heap :=
  fold_left (fun h (m : list ptr * Tag * R) =>
               fst (process_message model h m.1.1 m.1.2 m.2)) msgs h.
End Lgamma.

End Main.

Module MainProps.
Import Models Metrics MetricsProps Main.

Lemma create_anchors_info_from (h : Heap) (l : list ptr) (acc : AnchorsInfo) :
  fold_left
    (fun acc (anchor : ptr) =>
       {| anchors_selected_for_estimation :=
            anchors_selected_for_estimation acc
            ++ [(mac_address (h anchor), n (h anchor), ewma (h anchor))];
          warning_anchors :=
            if is_warning (h anchor)
            then warning_anchors acc ++ [mac_address (h anchor)]
            else warning_anchors acc;
          faulty_anchors :=
            if is_faulty (h anchor)
            then faulty_anchors acc ++ [mac_address (h anchor)]
            else faulty_anchors acc |}) l acc
  = {| anchors_selected_for_estimation :=
         anchors_selected_for_estimation acc
         ++ map (fun p => (mac_address (h p), n (h p), ewma (h p))) l;
       warning_anchors :=
         warning_anchors acc
         ++ map (fun p => mac_address (h p))
              (List.filter (fun p => is_warning (h p)) l);
       faulty_anchors :=
         faulty_anchors acc
         ++ map (fun p => mac_address (h p))
              (List.filter (fun p => is_faulty (h p)) l) |}.
Proof.
  revert acc. induction l as [|a l IH]; intros [sel w f]; cbn [fold_left].
  - cbn. by rewrite !app_nil_r.
  - rewrite IH. cbn [anchors_selected_for_estimation warning_anchors
      faulty_anchors map List.filter].
    destruct (is_warning (h a)), (is_faulty (h a)); cbn [map];
      by rewrite <-?app_assoc.
Qed.

Lemma create_anchors_info_lists (h : Heap) (l : list ptr) :
  create_anchors_info h l =
  {| anchors_selected_for_estimation :=
       map (fun p => (mac_address (h p), n (h p), ewma (h p))) l;
     warning_anchors :=
       map (fun p => mac_address (h p)) (List.filter (fun p => is_warning (h p)) l);
     faulty_anchors :=
       map (fun p => mac_address (h p)) (List.filter (fun p => is_faulty (h p)) l) |}.
Proof. unfold create_anchors_info. by rewrite create_anchors_info_from. Qed.

Lemma faulty_anchors_In (h : Heap) (l : list ptr) (mac : string) :
  In mac (faulty_anchors (create_anchors_info h l)) <->
  exists p, In p l /\ mac_address (h p) = mac /\ 8 <= ewma (h p).
Proof.
  rewrite create_anchors_info_lists. cbn [faulty_anchors].
  rewrite in_map_iff. split.
  - intros (p & <- & [Hp Hfa]%List.filter_In). exists p.
    unfold is_faulty in Hfa. apply bool_decide_eq_true in Hfa.
    repeat split; [done | lra].
  - intros (p & Hp & <- & He). exists p. split; [done|].
    apply List.filter_In. split; [done|]. apply bool_decide_eq_true. lra.
Qed.

(** X19.  The anchors part of the output.  It has one entry per candidate;
    a candidate is listed as faulty exactly when its health score is at
    least 8 and as warning exactly when the score is in [4, 8); and when the
    candidates carry distinct MAC addresses no MAC address is in both lists
    and neither list repeats one. *)
Theorem create_anchors_info_spec (h : Heap) (l : list ptr) :
  let info := create_anchors_info h l in
  length (anchors_selected_for_estimation info) = length l /\
  (forall mac, In mac (faulty_anchors info) <->
     exists p, In p l /\ mac_address (h p) = mac /\ 8 <= ewma (h p)) /\
  (forall mac, In mac (warning_anchors info) <->
     exists p, In p l /\ mac_address (h p) = mac /\ 4 <= ewma (h p) < 8) /\
  (unique_macs h l ->
   NoDup (faulty_anchors info) /\ NoDup (warning_anchors info) /\
   forall mac, In mac (faulty_anchors info) -> ~ In mac (warning_anchors info)).
Proof.
  intros info. subst info. rewrite create_anchors_info_lists.
  cbn [anchors_selected_for_estimation warning_anchors faulty_anchors].
  assert (forall mac, In mac (map (fun p => mac_address (h p))
                                (List.filter (fun p => is_faulty (h p)) l)) <->
            exists p, In p l /\ mac_address (h p) = mac /\ 8 <= ewma (h p)) as Hf.
  { intros mac. rewrite in_map_iff. split.
    - intros (p & <- & [Hp Hfa]%List.filter_In). exists p.
      unfold is_faulty in Hfa. apply bool_decide_eq_true in Hfa.
      repeat split; [done | lra].
    - intros (p & Hp & <- & He). exists p. split; [done|].
      apply List.filter_In. split; [done|]. apply bool_decide_eq_true. lra. }
  assert (forall mac, In mac (map (fun p => mac_address (h p))
                                (List.filter (fun p => is_warning (h p)) l)) <->
            exists p, In p l /\ mac_address (h p) = mac /\ 4 <= ewma (h p) < 8) as Hw.
  { intros mac. rewrite in_map_iff. split.
    - intros (p & <- & [Hp Hwa]%List.filter_In). exists p.
      unfold is_warning in Hwa. apply andb_true_iff in Hwa as [H4 H8].
      apply bool_decide_eq_true in H4. apply bool_decide_eq_true in H8.
      repeat split; [done | lra | lra].
    - intros (p & Hp & <- & He). exists p. split; [done|].
      apply List.filter_In. split; [done|]. unfold is_warning.
      apply andb_true_iff. split; apply bool_decide_eq_true; lra. }
  split; [by rewrite length_map|]. split; [done|]. split; [done|].
  intros Hu. split; [|split].
  - by apply (NoDup_map_filter (mac_of h)).
  - by apply (NoDup_map_filter (mac_of h)).
  - intros mac (p & Hp & Hm & He)%Hf (q & Hq & Hm' & He')%Hw.
    assert (p = q) as ->; [|lra].
    unfold unique_macs in Hu.
    apply (NoDup_fmap_1 (mac_of h)) in Hu as Hnd.
    assert (mac_of h p = mac_of h q) as Heq by (unfold mac_of; congruence).
    apply list_elem_of_In, list_elem_of_lookup in Hp as [i Hi].
    apply list_elem_of_In, list_elem_of_lookup in Hq as [j Hj].
    assert (i = j) as ->; [|congruence].
    eapply NoDup_lookup; [exact Hu| |].
    + rewrite list_lookup_fmap, Hi. reflexivity.
    + rewrite list_lookup_fmap, Hj. cbn. by rewrite Heq.
Qed.

Lemma create_anchors_info_spec_witness :
  NoDup (faulty_anchors (create_anchors_info (one_anchor_heap 0) [0%nat])).
Proof.
  apply (create_anchors_info_spec (one_anchor_heap 0) [0%nat]).
  apply one_anchor_unique.
Defined.

(** *** One message, and a sequence of messages *)


Lemma faulty_not_significant h tag l max_n p :
  8 <= ewma (h p) -> ~ In p (get_significant_anchors h tag l max_n).
Proof.
  intros He [_ Hk]%significant_in_filter.
  rewrite keeps_significant in Hk.
  apply bool_decide_eq_true in Hk as (r & _ & _ & Hlt). lra.
Qed.

Lemma process_message_heap lgamma model h l tag timestamp :
  forall p,
    fst (process_message lgamma model h l tag timestamp) p =
    update_anchors_from_tag_data h l tag model timestamp
      DEFAULT_DELTA_R DEFAULT_T_VIS p.
Proof.
  intros p. destruct l as [|a l]; [|reflexivity].
  cbn [process_message fst]. symmetry.
  apply orchestrator_frame. rewrite significant_anchors_nil. intros [].
Qed.

(** X20.  Faulty is absorbing.  An anchor whose health score has reached 8
    is never selected again, so no later message changes anything in it:
    after any sequence of messages its state is what it was, it is still
    faulty, and the output of every message that has it among its
    candidates lists its MAC address as faulty. *)
Theorem faulty_is_absorbing (lgamma : R -> R) (model : PathLossModel) (h : Heap)
  (msgs : list (list ptr * Tag * R)) (p : ptr) :
  8 <= ewma (h p) ->
  process_messages lgamma model h msgs p = h p /\
  is_faulty (process_messages lgamma model h msgs p) = true /\
  (forall l tag timestamp,
     In p l ->
     ~ In p (significant_anchors h tag l) /\
     exists out,
       snd (process_message lgamma model h l tag timestamp) = Some out /\
       In (mac_address (h p)) (faulty_anchors (anchors_info out))).
Proof.
  intros He.
  assert (process_messages lgamma model h msgs p = h p) as Hsame.
  { unfold process_messages. revert h He.
    induction msgs as [|[[l tag] ts] msgs IH]; intros h He; [done|].
    cbn [fold_left fst snd].
    assert (fst (process_message lgamma model h l tag ts) p = h p) as Hstep.
    { rewrite process_message_heap. apply orchestrator_frame.
      by apply faulty_not_significant. }
    rewrite IH; [done|]. by rewrite Hstep. }
  split; [done|]. split.
  { rewrite Hsame. unfold is_faulty. apply bool_decide_eq_true. lra. }
  intros l tag ts Hin. split; [by apply faulty_not_significant|].
  destruct l as [|a l]; [done|].
  eexists. split; [reflexivity|].
  cbn [create_output_info anchors_info].
  set (h' := update_anchors_from_tag_data h (a :: l) tag model ts
               DEFAULT_DELTA_R DEFAULT_T_VIS).
  assert (h' p = h p) as Hp.
  { apply orchestrator_frame. by apply faulty_not_significant. }
  apply faulty_anchors_In. exists p.
  rewrite Hp. repeat split; done.
Qed.

Definition faulty_heap : Heap := fun _ =>
  {| mac_address := "A"; coord := (0, 0, 0); ewma := 9; last_seen := 0;
     RSSI_0 := -59; n := 2; kalman := Kalman.init |}.

Lemma faulty_is_absorbing_witness :
  process_messages (fun _ => 0) new_PathLossModel faulty_heap
    [([0%nat], one_reading_tag, 1000); ([0%nat], one_reading_tag, 2000)] 0%nat
  = faulty_heap 0%nat.
Proof.
  apply (faulty_is_absorbing (fun _ => 0) new_PathLossModel faulty_heap).
  cbn [faulty_heap ewma]. lra.
Defined.



End MainProps.

(* ------------------------------------------------------------------ *)
(** ** main.cpp: reading a position message *)

Module Message.
Import Models Metrics.

(** The fields of a position message that the program reads.  An entry of
    [used_anchors] or [unused_anchors] is the pair of its ["mac"] and
    ["rssi"]; [None] stands for an absent key (the [contains] tests).  The
    exceptions of the JSON library on a missing or ill-typed field are not
    modelled: a message is well formed. *)
Record PositionMessage : Type := mkMessage {
  msg_tag_mac : string;
  msg_position : Utils.PointR3;
  used_anchors : option (list (string * R));
  unused_anchors : option (list (string * R));
  msg_timestamp : R
}.

(** [create_tag_class]: the loop [tag_rssi_dict[amac] = arssi]. *)
Definition create_tag_class (tag_data : PositionMessage) : Tag :=
  let tag_rssi_dict :=
    match used_anchors tag_data with
    | Some used =>
        fold_left (fun (m : gmap string R) (anchor_dict : string * R) =>
                     <[anchor_dict.1 := anchor_dict.2]> m) used ∅
    | None => ∅
    end in
  {| tag_mac_address := msg_tag_mac tag_data;
     est_coord := msg_position tag_data;
     rssi_readings := tag_rssi_dict |}.

(** [std::unique]: of every run of equal consecutive elements the first
    is kept. *)
Fixpoint std_unique (l : list string) : list string :=
  match l with
  | [] => []
  | x :: l' =>
      match l' with
      | [] => [x]
      | y :: _ => if decide (x = y) then std_unique l' else x :: std_unique l'
      end
  end.

(** [extract_anchor_macs_from_message]: the MAC addresses of the used
    anchors, then of the unused ones, sorted with [operator<] of
    [std::string] (lexicographic on the bytes) and made unique. *)
Definition extract_anchor_macs_from_message (tag_data : PositionMessage)
  : list string :=
  let anchor_macs :=
    match used_anchors tag_data with
    | Some used => map fst used
    | None => []
    end in
  let anchor_macs :=
    match unused_anchors tag_data with
    | Some unused => anchor_macs ++ map fst unused
    | None => anchor_macs
    end in
  std_unique (std_sort String.ltb anchor_macs).

End Message.

Module MessageProps.
Import Models Metrics MetricsProps Message.
Import OrderedTypeEx.

Definition string_lt (a b : string) : Prop := String_as_OT.lt a b.
Definition string_le (a b : string) : Prop := ~ string_lt b a.

Lemma ltb_lt (a b : string) : String.ltb a b = true <-> string_lt a b.
Proof.
  unfold String.ltb, string_lt. rewrite <-String_as_OT.cmp_lt.
  unfold String_as_OT.cmp. destruct (String.compare a b); split; done.
Qed.

Lemma string_lt_irrefl (a : string) : ~ string_lt a a.
Proof. intros H. by apply String_as_OT.lt_not_eq in H. Qed.

Lemma string_lt_trans (a b c : string) :
  string_lt a b -> string_lt b c -> string_lt a c.
Proof. apply String_as_OT.lt_trans. Qed.

Lemma string_lt_total (a b : string) : string_lt a b \/ a = b \/ string_lt b a.
Proof.
  unfold string_lt. rewrite <-!String_as_OT.cmp_lt.
  pose proof (String_as_OT.cmp_eq a b) as He.
  pose proof (String_as_OT.cmp_antisym b a) as Ha.
  destruct (String_as_OT.cmp a b); cbn in Ha; tauto.
Qed.

Lemma sort_insert_strings_sorted (x : string) (l : list string) :
  StronglySorted string_le l ->
  StronglySorted string_le (sort_insert String.ltb x l).
Proof.
  induction 1 as [|y l Hl IH Hy]; cbn [sort_insert].
  - repeat constructor.
  - destruct (String.ltb y x) eqn:Hc.
    + apply ltb_lt in Hc. constructor; [done|].
      apply List.Forall_forall. intros b Hb.
      apply (Permutation_in _ (sort_insert_perm _ x l)) in Hb.
      destruct Hb as [<-|Hb].
      * intros Hxy. eapply string_lt_irrefl, string_lt_trans; done.
      * by apply (proj1 (List.Forall_forall _ _) Hy).
    + assert (~ string_lt y x) as Hnlt.
      { intros H%ltb_lt. congruence. }
      constructor; [by constructor|].
      constructor; [done|].
      eapply List.Forall_impl; [|exact Hy].
      intros b Hyb Hbx. cbn beta in Hyb.
      destruct (string_lt_total x y) as [Hxy|[->|Hyx]]; [|done..].
      apply Hyb. by eapply string_lt_trans.
Qed.

Lemma std_sort_strings_sorted (l : list string) :
  StronglySorted string_le (std_sort String.ltb l).
Proof.
  induction l as [|x l IH]; cbn [std_sort]; [constructor|].
  by apply sort_insert_strings_sorted.
Qed.

Lemma std_unique_In (l : list string) (x : string) :
  In x (std_unique l) <-> In x l.
Proof.
  induction l as [|a l IH]; [done|].
  cbn [std_unique]. destruct l as [|b l]; [done|].
  case_decide as Hab.
  - rewrite IH. subst b. cbn [In]. tauto.
  - cbn [In] in *. rewrite IH. tauto.
Qed.

Lemma std_unique_sorted (l : list string) :
  StronglySorted string_le l -> StronglySorted string_lt (std_unique l).
Proof.
  induction 1 as [|a l Hl IH Ha]; [constructor|].
  cbn [std_unique]. destruct l as [|b l]; [repeat constructor|].
  case_decide as Hab; [done|].
  constructor; [done|].
  apply List.Forall_forall. intros c Hc.
  apply (proj1 (std_unique_In (b :: l) c)) in Hc. cbn [In] in Hc.
  pose proof (proj1 (List.Forall_forall _ _) Ha) as Hall.
  assert (string_lt a b) as Hltab.
  { destruct (string_lt_total a b) as [H|[H|H]]; [done | done |].
    exfalso. by apply (Hall b (or_introl eq_refl)). }
  destruct Hc as [<-|Hc]; [done|].
  apply StronglySorted_inv in Hl as [_ Hb].
  pose proof (proj1 (List.Forall_forall _ _) Hb c Hc) as Hbc.
  destruct (string_lt_total a c) as [H|[H|H]]; [done | |].
  - subst c. exfalso. by apply Hbc.
  - exfalso. apply Hbc. by eapply string_lt_trans.
Qed.

Lemma strictly_sorted_NoDup (l : list string) :
  StronglySorted string_lt l -> NoDup l.
Proof.
  induction 1 as [|a l Hl IH Ha]; constructor; [|done].
  intros Hin%list_elem_of_In.
  by apply (string_lt_irrefl a), (proj1 (List.Forall_forall _ _) Ha).
Qed.

(** The MAC addresses a message mentions. *)
Definition mentioned (tag_data : PositionMessage) (mac : string) : Prop :=
  (exists used r, used_anchors tag_data = Some used /\ In (mac, r) used) \/
  (exists unused r, unused_anchors tag_data = Some unused /\ In (mac, r) unused).

Lemma extract_anchor_macs_In (tag_data : PositionMessage) (mac : string) :
  In mac (extract_anchor_macs_from_message tag_data) <-> mentioned tag_data mac.
Proof.
  unfold extract_anchor_macs_from_message.
  set (all := match unused_anchors tag_data with
              | Some unused => _ ++ map fst unused
              | None => _
              end).
  rewrite std_unique_In.
  split.
  - intros Hin. apply (Permutation_in _ (std_sort_perm _ _)) in Hin.
    subst all. unfold mentioned.
    destruct (used_anchors tag_data) as [used|], (unused_anchors tag_data)
      as [unused|]; try apply in_app_or in Hin as [Hin|Hin];
      try apply in_map_iff in Hin as ([m r] & <- & Hin); try done.
    + left. by exists used, r.
    + right. by exists unused, r.
    + left. by exists used, r.
    + right. by exists unused, r.
  - intros Hm. apply (Permutation_in _ (Permutation_sym (std_sort_perm _ _))).
    subst all.
    destruct Hm as [(used & r & -> & Hin)|(unused & r & Hu & Hin)].
    + assert (In mac (map fst used)) as Hmac.
      { apply in_map_iff. by exists (mac, r). }
      destruct (unused_anchors tag_data); [apply in_or_app; by left | done].
    + rewrite Hu. apply in_or_app. right. apply in_map_iff. by exists (mac, r).
Qed.

(** X22.  [extract_anchor_macs_from_message] returns the MAC addresses the
    message mentions among its used or unused anchors, each exactly once,
    in strictly increasing lexicographic order. *)
Theorem extract_anchor_macs_spec (tag_data : PositionMessage) :
  let macs := extract_anchor_macs_from_message tag_data in
  (forall mac, In mac macs <-> mentioned tag_data mac) /\
  StronglySorted string_lt macs /\
  NoDup macs.
Proof.
  intros macs. subst macs.
  assert (StronglySorted string_lt (extract_anchor_macs_from_message tag_data))
    as Hs.
  { unfold extract_anchor_macs_from_message.
    apply std_unique_sorted, std_sort_strings_sorted. }
  split; [apply extract_anchor_macs_In|].
  split; [done | by apply strictly_sorted_NoDup].
Qed.

(** X23.  The tag built from a message has a reading for exactly the MAC
    addresses of the used anchors, the reading of a MAC address that occurs
    several times being the last one; it has no reading when the key is
    absent; and every anchor the tag has a reading for is among the MAC
    addresses that [extract_anchor_macs_from_message] discovers. *)
Theorem create_tag_class_spec (tag_data : PositionMessage) :
  let tag := create_tag_class tag_data in
  tag_mac_address tag = msg_tag_mac tag_data /\
  est_coord tag = msg_position tag_data /\
  (used_anchors tag_data = None -> rssi_readings tag = ∅) /\
  (forall used, used_anchors tag_data = Some used ->
     forall mac,
       rssi_readings tag !! mac =
       snd <$> List.find (fun e : string * R => bool_decide (e.1 = mac)) (rev used)) /\
  (forall mac, is_Some (rssi_readings tag !! mac) ->
     In mac (extract_anchor_macs_from_message tag_data)).
Proof.
  intros tag. subst tag. unfold create_tag_class. cbn [tag_mac_address est_coord
    rssi_readings].
  assert (forall used mac,
    fold_left (fun (m : gmap string R) (e : string * R) => <[e.1 := e.2]> m) used ∅
      !! mac =
    snd <$> List.find (fun e : string * R => bool_decide (e.1 = mac)) (rev used))
    as Hfold.
  { intros used mac. induction used as [|e used IH] using rev_ind; [done|].
    rewrite fold_left_app, rev_unit. cbn [fold_left List.find].
    case_bool_decide as He.
    - by rewrite He, lookup_insert_eq.
    - by rewrite lookup_insert_ne. }
  split; [done|]. split; [done|]. split; [by intros ->|]. split.
  - intros used ->. apply Hfold.
  - intros mac [r Hr]. apply extract_anchor_macs_In.
    left. destruct (used_anchors tag_data) as [used|]; [|done].
    rewrite Hfold in Hr.
    destruct (List.find _ (rev used)) as [[m r']|] eqn:Hf; [|done].
    apply List.find_some in Hf as [Hin Hm].
    apply bool_decide_eq_true in Hm. cbn in Hm. subst m.
    exists used, r'. split; [done|]. by apply in_rev.
Qed.

End MessageProps.
